(** * Portfolio page script: a shallow embedding of [script.js]

    The script is a set of event handlers that mutate class lists, inline
    styles and a few properties of DOM elements.  The embedding keeps one
    module per block of the script:

    - [Dom]: class lists ([DOMTokenList]), attributes, completions;
    - [Navigation]: the mobile menu handlers, [smoothScrollToSection] and
      the [keydown] handler;
    - [Scroll]: [handleHeaderScroll] and [highlightActiveNavLink];
    - [ProjectFilter]: the class of the same name;
    - [ScrollAnimations]: the fade-in observer, and every class-list call
      of the script as a mutation of an element;
    - [JsString]: strings as code units, [trim], and regular expressions
      with the e-mail pattern of [isValidEmail];
    - [ContactForm]: the form as a tree of elements with its controls,
      validation, inline errors, the simulated submission and its
      timers;
    - [Debounce]: [debounce] over an explicit timer queue, with the calls
      of the wrapper and the runs of the event loop as separate
      operations;
    - [SkillBars]: the staggered reveal of [createSkillBarObserver];
    - [LazyLoading]: [initializeLazyLoading];
    - [FeatureSupport]: [checkFeatureSupport] and what page load does to
      the fade elements.

    Pixel quantities ([pageYOffset], [offsetTop], [offsetHeight]) are
    integers ([Z]); times are milliseconds ([Z]).  [null] and [undefined]
    are [None].  A property access on [null] ends a handler in
    [TypeError].  The second part of the file states and proves the
    properties, block by block. *)

From Stdlib Require Import ZArith Lia.
From stdpp Require Import base list strings.

Local Open Scope Z_scope.

(* ===================================================================== *)
(** ** DOM basics *)
(* ===================================================================== *)

Module Dom.

(** What a handler's run ends in: a normal completion carrying the new
    state, or an uncaught [TypeError] (property access on [null]). *)
Inductive completion (A : Type) : Type :=
| Normal (a : A)
| TypeError.
Arguments Normal {A} a.
Arguments TypeError {A}.

(** An element, as far as the script looks at it. *)
Record element := Element {
  classList : list string;
  attributes : list (string * string);
  style : list (string * string)
}.

(** [el.getAttribute(name)]: the first attribute of that name, or [null]. *)
Fixpoint getAttribute (name : string) (attrs : list (string * string))
  : option string :=
  match attrs with
  | [] => None
  | (k, v) :: rest => if String.eqb k name then Some v else getAttribute name rest
  end.

(** [DOMTokenList]: [contains], [add] (appends a token that is not there
    yet) and [remove] (drops every occurrence). *)
Definition contains (c : string) (cl : list string) : bool :=
  bool_decide (c ∈ cl).

Definition add (c : string) (cl : list string) : list string :=
  if contains c cl then cl else cl ++ [c].

Definition remove (c : string) (cl : list string) : list string :=
  filter (λ x, x ≠ c) cl.

Definition classList_add (c : string) (e : element) : element :=
  {| classList := add c (classList e);
     attributes := attributes e; style := style e |}.

Definition classList_remove (c : string) (e : element) : element :=
  {| classList := remove c (classList e);
     attributes := attributes e; style := style e |}.

Definition has_class (c : string) (e : element) : bool :=
  contains c (classList e).

(** [el.style.prop = v]: replaces the property's value. *)
Definition style_set (prop v : string) (e : element) : element :=
  {| classList := classList e; attributes := attributes e;
     style := (prop, v) :: filter (λ kv, kv.1 ≠ prop) (style e) |}.

(** [haystack.includes(needle)], the test behind the [*=] attribute
    selector. *)
Fixpoint includes (needle hay : string) : bool :=
  String.prefix needle hay
  || match hay with
     | EmptyString => false
     | String _ rest => includes needle rest
     end.

End Dom.

(* ===================================================================== *)
(** ** Navigation: mobile menu, smooth scrolling, keyboard support *)
(* ===================================================================== *)

Module Navigation.
Import Dom.

(** The module-level lookups of the script and what its handlers read:
    [navMenu], [navToggle], [navClose] are results of [getElementById]
    ([None] is [null]); [headerHeight] is the [offsetHeight] of
    [document.querySelector('.header')] when there is such an element;
    [scrolledTo] records the last [window.scrollTo({top})]. *)
Record page := Page {
  navMenu : option element;
  navToggle : option element;
  navClose : option element;
  headerHeight : option Z;
  scrolledTo : option Z
}.

Definition set_navMenu (m : element) (p : page) : page :=
  {| navMenu := Some m; navToggle := navToggle p; navClose := navClose p;
     headerHeight := headerHeight p; scrolledTo := scrolledTo p |}.

Definition scrollTo (top : Z) (p : page) : page :=
  {| navMenu := navMenu p; navToggle := navToggle p; navClose := navClose p;
     headerHeight := headerHeight p; scrolledTo := Some top |}.

(** [navMenu.classList.add/remove('show-menu')]: [navMenu] is dereferenced
    as it is. *)
Definition navMenu_show (p : page) : completion page :=
  match navMenu p with
  | None => TypeError
  | Some m => Normal (set_navMenu (classList_add "show-menu" m) p)
  end.

Definition navMenu_hide (p : page) : completion page :=
  match navMenu p with
  | None => TypeError
  | Some m => Normal (set_navMenu (classList_remove "show-menu" m) p)
  end.

(** A click on the toggle button: the listener is there only [if (navToggle)]. *)
Definition click_navToggle (p : page) : completion page :=
  match navToggle p with
  | None => Normal p
  | Some _ => navMenu_show p
  end.

(** A click on the close button: the listener is there only [if (navClose)]. *)
Definition click_navClose (p : page) : completion page :=
  match navClose p with
  | None => Normal p
  | Some _ => navMenu_hide p
  end.

(** An [href] that is a valid id selector for certain: [#] followed by a
    letter or an underscore and then letters, digits, hyphens and
    underscores.  For such a [targetId], [document.querySelector(targetId)]
    is the element of that id, or [null].  Other values starting with [#]
    need not be selectors at all: for [#] alone or [#1st] the call throws a
    [SyntaxError], which the definitions below leave out; the properties
    of a click on a link are stated for the [href]s accepted here. *)
Definition ident_start (a : Ascii.ascii) : bool :=
  let n := Ascii.nat_of_ascii a in
  (Nat.leb 65 n && Nat.leb n 90) || (Nat.leb 97 n && Nat.leb n 122)
  || Nat.eqb n 95.

Definition ident_char (a : Ascii.ascii) : bool :=
  let n := Ascii.nat_of_ascii a in
  ident_start a || (Nat.leb 48 n && Nat.leb n 57) || Nat.eqb n 45.

Fixpoint all_ident_chars (s : string) : bool :=
  match s with
  | EmptyString => true
  | String a rest => ident_char a && all_ident_chars rest
  end.

Definition id_selector (href : string) : bool :=
  match href with
  | String h (String a rest) =>
      Nat.eqb (Ascii.nat_of_ascii h) 35 && ident_start a && all_ident_chars rest
  | _ => false
  end.

(** [smoothScrollToSection(targetId)]; [targetSection] is the [offsetTop]
    of [document.querySelector(targetId)] when the selector finds an
    element, and [None] when it finds none. *)
Definition smoothScrollToSection (targetSection : option Z) (p : page)
  : completion page :=
  match headerHeight p with
  | None => TypeError
  | Some headerHeight =>
      match targetSection with
      | Some sectionTop => Normal (scrollTo (sectionTop - headerHeight) p)
      | None => Normal p
      end
  end.

(** A click on a navigation link runs the two listeners registered on it:
    the first closes the menu, the second scrolls when the [href] starts
    with [#]; [href] is the result of [link.getAttribute('href')]. *)
Definition click_navLink_close (p : page) : completion page :=
  navMenu_hide p.

Definition click_navLink_scroll (href : option string)
  (targetSection : option Z) (p : page) : completion page :=
  match href with
  | None => TypeError
  | Some targetId =>
      if String.prefix "#" targetId
      then smoothScrollToSection targetSection p
      else Normal p
  end.

(** The [keydown] listener; [target_is_filter_btn] is
    [e.target.classList.contains('filter__btn')].  The result also says
    whether [e.target.click()] was called. *)
Definition keydown (key : string) (target_is_filter_btn : bool) (p : page)
  : completion (page * bool) :=
  let after_escape :=
    if String.eqb key "Escape" then
      match navMenu p with
      | None => TypeError
      | Some m =>
          if has_class "show-menu" m then navMenu_hide p else Normal p
      end
    else Normal p in
  match after_escape with
  | TypeError => TypeError
  | Normal q =>
      Normal (q, String.eqb key "Enter" && target_is_filter_btn)
  end.

End Navigation.

(* ===================================================================== *)
(** ** Header blur and active navigation link *)
(* ===================================================================== *)

Module Scroll.
Import Dom.

(** A [section[id]] element: its [id] attribute and its layout box. *)
Record section := Section_ {
  id : string;
  offsetTop : Z;
  offsetHeight : Z
}.

(** [header] is [document.getElementById('header')]; [sections] is
    [document.querySelectorAll('section[id]')]; [elements] are the
    document's elements in tree order, where [querySelector] looks for the
    navigation links.  Layout is fixed while a handler runs. *)
Record page := Page {
  header : option element;
  sections : list section;
  elements : list element;
  pageYOffset : Z
}.

Definition handleHeaderScroll (p : page) : completion page :=
  let scrollY := pageYOffset p in
  match header p with
  | None => TypeError
  | Some header =>
      let header' :=
        if 50 <=? scrollY then classList_add "blur-header" header
        else classList_remove "blur-header" header in
      Normal {| header := Some header'; sections := sections p;
                elements := elements p; pageYOffset := pageYOffset p |}
  end.

(** The handler pastes the section's id between the double quotes of the
    selector [.nav__link[href*="..."]].  The quoted string is read back as
    the id itself when the id is plain: no double quote (which would end
    the string early), no backslash (which starts an escape), no line
    feed, carriage return or form feed (which make the string, and so the
    selector, invalid) and no null character (which the parser replaces).
    With another id [querySelector] may throw a [SyntaxError] or select by
    another value; [matches_navLink] below is the selector for plain ids,
    and the properties of the active link are stated for pages whose
    sections have plain ids. *)
Definition plain_char (a : Ascii.ascii) : bool :=
  let n := Ascii.nat_of_ascii a in
  negb (Nat.eqb n 34 || Nat.eqb n 92 || Nat.eqb n 10 || Nat.eqb n 13
        || Nat.eqb n 12 || Nat.eqb n 0).

Fixpoint plain_id (sectionId : string) : bool :=
  match sectionId with
  | EmptyString => true
  | String a rest => plain_char a && plain_id rest
  end.

(** The selector [.nav__link[href*="sectionId"]] for a plain [sectionId]:
    class [nav__link] and an [href] attribute that contains [sectionId];
    an empty value matches nothing. *)
Definition matches_navLink (sectionId : string) (e : element) : bool :=
  has_class "nav__link" e
  && match getAttribute "href" (attributes e) with
     | Some href =>
         negb (String.eqb sectionId "") && includes sectionId href
     | None => false
     end.

(** [document.querySelector]: the first match in tree order, as an index
    into [elements]; [None] is [null]. *)
Fixpoint querySelector (sel : element → bool) (els : list element)
  : option nat :=
  match els with
  | [] => None
  | e :: rest => if sel e then Some 0%nat else S <$> querySelector sel rest
  end.

(** [navLink?.classList.add(c)] and [navLink?.classList.remove(c)]. *)
Definition optional_add (navLink : option nat) (c : string)
  (els : list element) : list element :=
  match navLink with
  | Some k => alter (classList_add c) k els
  | None => els
  end.

Definition optional_remove (navLink : option nat) (c : string)
  (els : list element) : list element :=
  match navLink with
  | Some k => alter (classList_remove c) k els
  | None => els
  end.

(** The body of the [sections.forEach] callback; [scrollY] is already
    [window.pageYOffset + 200]. *)
Definition highlightSection (scrollY : Z) (els : list element)
  (section : section) : list element :=
  let sectionHeight := offsetHeight section in
  let sectionTop := offsetTop section - 200 in
  let sectionId := id section in
  let navLink := querySelector (matches_navLink sectionId) els in
  if (sectionTop <? scrollY) && (scrollY <=? sectionTop + sectionHeight)
  then optional_add navLink "active-link" els
  else optional_remove navLink "active-link" els.

Definition highlightActiveNavLink (p : page) : page :=
  let scrollY := pageYOffset p + 200 in
  {| header := header p; sections := sections p;
     elements := foldl (highlightSection scrollY) (elements p) (sections p);
     pageYOffset := pageYOffset p |}.

(** Every section of the page has a plain id. *)
Definition plain_ids (p : page) : Prop :=
  Forall (λ s, plain_id (id s) = true) (sections p).

(** The link that [highlightActiveNavLink] selects for a section. *)
Definition navLink_of (p : page) (s : section) : option nat :=
  querySelector (matches_navLink (id s)) (elements p).

(** The test of the source on a section, as a proposition. *)
Definition in_view (pageYOffset : Z) (s : section) : Prop :=
  offsetTop s - 200 < pageYOffset + 200
  ∧ pageYOffset + 200 ≤ offsetTop s - 200 + offsetHeight s.

(** One section, [about], from 600 to 1000, and its navigation link. *)
Definition about_page (y : Z) : page :=
  Page None [Section_ "about" 600 400]
       [Element ["nav__link"] [("href", "#about")] []] y.

(** Two sections one below the other, [about] from 600 to 1000 and
    [projects] from 1000 to 1500, and their navigation links. *)
Definition stacked_page (y : Z) : page :=
  Page None [Section_ "about" 600 400; Section_ "projects" 1000 500]
       [Element ["nav__link"] [("href", "#about")] [];
        Element ["nav__link"] [("href", "#projects")] []] y.

End Scroll.

(* ===================================================================== *)
(** ** Project filtering *)
(* ===================================================================== *)

Module ProjectFilter.
Import Dom.

(** What a pending [setTimeout] of [filterProjects] will do: reset the
    inline style of the card at that index of [projectCards]. *)
Record timer := Timer {
  delay : Z;
  card : nat
}.

(** [this.filterButtons], [this.projectCards] (the two static node lists
    taken by the constructor) and the timers set so far. *)
Record t := Make {
  filterButtons : list element;
  projectCards : list element;
  timers : list timer
}.

(** [filter === 'all' || category === filter], on the results of
    [getAttribute] ([None] is [null], and [null === null]). *)
Definition shouldShow (filter category : option string) : bool :=
  bool_decide (filter = Some "all") || bool_decide (category = filter).

Definition updateActiveButton (activeBtn : nat) (pf : t) : t :=
  let cleared := map (classList_remove "filter__btn--active") (filterButtons pf) in
  {| filterButtons := alter (classList_add "filter__btn--active") activeBtn cleared;
     projectCards := projectCards pf;
     timers := timers pf |}.

(** The [projectCards.forEach] loop, from the card at index [i] on. *)
Fixpoint filterCards (filter : option string) (i : nat)
  (cards : list element) (timers : list timer)
  : list element * list timer :=
  match cards with
  | [] => ([], timers)
  | card :: rest =>
      let category := getAttribute "data-category" (attributes card) in
      if shouldShow filter category then
        let '(rest', timers') :=
          filterCards filter (S i) rest (timers ++ [Timer 100 i]) in
        (classList_remove "hide" card :: rest', timers')
      else
        let '(rest', timers') := filterCards filter (S i) rest timers in
        (classList_add "hide" card :: rest', timers')
  end.

Definition filterProjects (filter : option string) (pf : t) : t :=
  let '(cards, timers) := filterCards filter 0 (projectCards pf) (timers pf) in
  {| filterButtons := filterButtons pf;
     projectCards := cards;
     timers := timers |}.

(** The click listener of the button at index [clickedBtn] of
    [filterButtons]; listeners are registered on these buttons only. *)
Definition handleFilter (clickedBtn : nat) (pf : t) : t :=
  match filterButtons pf !! clickedBtn with
  | None => pf
  | Some btn =>
      let filter := getAttribute "data-filter" (attributes btn) in
      filterProjects filter (updateActiveButton clickedBtn pf)
  end.

(** The callback of a timer, once it fires. *)
Definition fire (tm : timer) (pf : t) : t :=
  {| filterButtons := filterButtons pf;
     projectCards :=
       alter (λ c, style_set "opacity" "1" (style_set "transform" "translateY(0)" c))
             (card tm) (projectCards pf);
     timers := timers pf |}.

(** The number of buttons that carry the active mark. *)
Definition active_count (pf : t) : nat :=
  length (filter (λ b, has_class "filter__btn--active" b = true) (filterButtons pf)).

(** Two buttons, [all] and [web], and two cards, [web] and [design]. *)
Definition gallery : t :=
  {| filterButtons :=
       [Element ["filter__btn"; "filter__btn--active"] [("data-filter", "all")] [];
        Element ["filter__btn"] [("data-filter", "web")] []];
     projectCards :=
       [Element ["project__card"] [("data-category", "web")] [];
        Element ["project__card"] [("data-category", "design")] []];
     timers := [] |}.

(** What the loop of [filterProjects] does to one card. *)
Definition showOrHide (filter : option string) (card : element) : element :=
  if shouldShow filter (getAttribute "data-category" (attributes card))
  then classList_remove "hide" card
  else classList_add "hide" card.

(** The cards that are not hidden. *)
Definition visible (pf : t) : list element :=
  filter (λ c, has_class "hide" c = false) (projectCards pf).

End ProjectFilter.

(* ===================================================================== *)
(** ** Scroll-triggered animations *)
(* ===================================================================== *)

Module ScrollAnimations.
Import Dom.

(** An entry handed to the observer's callback: the observed element, as
    an index into the observed list, and whether it intersects. *)
Record entry := Entry {
  target : nat;
  isIntersecting : bool
}.

(** [classList.add('animate-on-scroll', 'animated')]. *)
Definition fadeIn (e : element) : element :=
  classList_add "animated" (classList_add "animate-on-scroll" e).

(** [createFadeInObserver]: every fade element gets [animate-on-scroll]
    and is observed. *)
Definition createFadeInObserver (fadeElements : list element) : list element :=
  map (classList_add "animate-on-scroll") fadeElements.

(** The callback of [fadeObserver], on one batch of entries. *)
Definition fadeCallback (entries : list entry) (fadeElements : list element)
  : list element :=
  foldl (λ els entry,
           if isIntersecting entry then alter fadeIn (target entry) els
           else els)
        fadeElements entries.

(** Every call of the script that changes the class list of an element it
    did not create itself, by the place it is made at. *)
Inductive mutation :=
| MenuShow            (* navMenu: add show-menu *)
| MenuHide            (* navMenu: remove show-menu *)
| HeaderBlur          (* header: add blur-header *)
| HeaderUnblur        (* header: remove blur-header *)
| LinkActivate        (* navLink: add active-link *)
| LinkDeactivate      (* navLink: remove active-link *)
| ButtonDeactivate    (* filter button: remove filter__btn--active *)
| ButtonActivate      (* filter button: add filter__btn--active *)
| CardShow            (* project card: remove hide *)
| CardHide            (* project card: add hide *)
| FadePending         (* fade element: add animate-on-scroll *)
| FadeIn              (* fade element: add animate-on-scroll, animated *)
| SkillAnimate        (* skill: add animate *)
| ImageLoaded         (* lazy image: remove lazy *)
| FallbackAnimated    (* checkFeatureSupport: add animated *)
| NoGrid.             (* body: add no-grid *)

Definition mutate (m : mutation) (e : element) : element :=
  match m with
  | MenuShow => classList_add "show-menu" e
  | MenuHide => classList_remove "show-menu" e
  | HeaderBlur => classList_add "blur-header" e
  | HeaderUnblur => classList_remove "blur-header" e
  | LinkActivate => classList_add "active-link" e
  | LinkDeactivate => classList_remove "active-link" e
  | ButtonDeactivate => classList_remove "filter__btn--active" e
  | ButtonActivate => classList_add "filter__btn--active" e
  | CardShow => classList_remove "hide" e
  | CardHide => classList_add "hide" e
  | FadePending => classList_add "animate-on-scroll" e
  | FadeIn => fadeIn e
  | SkillAnimate => classList_add "animate" e
  | ImageLoaded => classList_remove "lazy" e
  | FallbackAnimated => classList_add "animated" e
  | NoGrid => classList_add "no-grid" e
  end.

(** What can happen to the observed elements after the observer is set up:
    a batch of intersection entries, or any other class-list call of the
    script on the element at some index. *)
Inductive event :=
| Intersections (entries : list entry)
| Other (i : nat) (m : mutation).

Definition step (els : list element) (ev : event) : list element :=
  match ev with
  | Intersections entries => fadeCallback entries els
  | Other i m => alter (mutate m) i els
  end.

Definition run (evs : list event) (els : list element) : list element :=
  foldl step els evs.

Definition animated (els : list element) (i : nat) : bool :=
  match els !! i with
  | Some e => has_class "animated" e
  | None => false
  end.

End ScrollAnimations.

(* ===================================================================== *)
(** ** JavaScript strings, [trim] and the e-mail pattern *)
(* ===================================================================== *)

Module JsString.

(** A JavaScript string is a sequence of UTF-16 code units. *)
Definition code_unit := N.
Definition jsstring := list code_unit.

Local Open Scope N_scope.

(** White space and line terminators of ECMAScript: what [trim] strips and
    what [\s] matches. *)
Definition isWhiteSpace (c : code_unit) : bool :=
  (c =? 0x0009) || (c =? 0x000A) || (c =? 0x000B) || (c =? 0x000C)
  || (c =? 0x000D) || (c =? 0x0020) || (c =? 0x00A0) || (c =? 0x1680)
  || ((0x2000 <=? c) && (c <=? 0x200A))
  || (c =? 0x2028) || (c =? 0x2029) || (c =? 0x202F) || (c =? 0x205F)
  || (c =? 0x3000) || (c =? 0xFEFF).

Fixpoint trimStart (s : jsstring) : jsstring :=
  match s with
  | [] => []
  | c :: rest => if isWhiteSpace c then trimStart rest else s
  end.

Definition trimEnd (s : jsstring) : jsstring := rev (trimStart (rev s)).

Definition trim (s : jsstring) : jsstring := trimEnd (trimStart s).

(** Truthiness of a string: it is not empty. *)
Definition truthy (s : jsstring) : bool :=
  match s with [] => false | _ :: _ => true end.

(** The code units of a string of the Latin-1 range, for writing values. *)
Fixpoint of_string (s : string) : jsstring :=
  match s with
  | EmptyString => []
  | String a rest => Ascii.N_of_ascii a :: of_string rest
  end.

(** Regular expressions, as far as the script uses them: character
    classes, concatenation and repetition.  [Alt] and [Empty] are there for
    the derivatives. *)
Inductive regex :=
| Empty
| Eps
| Class (p : code_unit → bool)
| Cat (r1 r2 : regex)
| Alt (r1 r2 : regex)
| Star (r : regex).

(** [r+]. *)
Definition Plus (r : regex) : regex := Cat r (Star r).

Fixpoint nullable (r : regex) : bool :=
  match r with
  | Empty => false
  | Eps => true
  | Class _ => false
  | Cat r1 r2 => nullable r1 && nullable r2
  | Alt r1 r2 => nullable r1 || nullable r2
  | Star _ => true
  end.

Fixpoint deriv (c : code_unit) (r : regex) : regex :=
  match r with
  | Empty => Empty
  | Eps => Empty
  | Class p => if p c then Eps else Empty
  | Cat r1 r2 =>
      if nullable r1 then Alt (Cat (deriv c r1) r2) (deriv c r2)
      else Cat (deriv c r1) r2
  | Alt r1 r2 => Alt (deriv c r1) (deriv c r2)
  | Star r1 => Cat (deriv c r1) (Star r1)
  end.

(** [/^r$/.test(s)]: the whole of [s] is in the language of [r]. *)
Fixpoint test (r : regex) (s : jsstring) : bool :=
  match s with
  | [] => nullable r
  | c :: rest => test (deriv c r) rest
  end.

(** The language of a regular expression. *)
Inductive lang : regex → jsstring → Prop :=
| lang_eps : lang Eps []
| lang_class p c : p c = true → lang (Class p) [c]
| lang_cat r1 r2 s1 s2 : lang r1 s1 → lang r2 s2 → lang (Cat r1 r2) (s1 ++ s2)
| lang_alt_l r1 r2 s : lang r1 s → lang (Alt r1 r2) s
| lang_alt_r r1 r2 s : lang r2 s → lang (Alt r1 r2) s
| lang_star_nil r : lang (Star r) []
| lang_star_cons r s1 s2 :
    lang r s1 → lang (Star r) s2 → lang (Star r) (s1 ++ s2).

(** [[^\s@]]. *)
Definition notSpaceAt (c : code_unit) : bool :=
  negb (isWhiteSpace c || (c =? 0x40)).

(** [/^[^\s@]+@[^\s@]+\.[^\s@]+$/]. *)
Definition emailRegex : regex :=
  Cat (Plus (Class notSpaceAt))
 (Cat (Class (N.eqb 0x40))
 (Cat (Plus (Class notSpaceAt))
 (Cat (Class (N.eqb 0x2E))
      (Plus (Class notSpaceAt))))).

End JsString.

(* ===================================================================== *)
(** ** Contact form *)
(* ===================================================================== *)

Module ContactForm.
Import Dom JsString.

(** A control of the form.  [localName] is the element's tag ([input],
    [textarea], [select], ...); [parentNode] is the key of the element
    the control is a child of (see [node]). *)
Record field := Field {
  localName : string;
  required : bool;
  type : string;
  value : jsstring;
  defaultValue : jsstring;
  parentNode : nat;
  borderColor : string
}.

(** The [div.form__error] that [showFieldError] builds. *)
Record errorDiv := ErrorDiv {
  className : string;
  textContent : string;
  color : string;
  fontSize : string;
  marginTop : string
}.

(** The tree of the form element, as far as inline errors go.  An element
    is of class [form__error] (a leaf: [showFieldError] gives it a text
    and nothing else) or it is any other element, with a key that names
    it and its children in order.  A control is not a node of its own: it
    knows the key of its parent.  In the tree of a page no two elements
    have the same key. *)
#[local] Unset Elimination Schemes.
Inductive node :=
| ErrorNode (e : errorDiv)
| Elem (key : nat) (children : list node).
#[local] Set Elimination Schemes.

(** The submit control, [button[type="submit"]]. *)
Record button := Button {
  innerHTML : string;
  disabled : bool
}.

(** A notification appended to [document.body]; [attached] turns false
    when [notification.remove()] runs. *)
Record notification := Notification {
  n_className : string;
  n_background : string;
  n_transform : string;
  n_textContent : string;
  attached : bool
}.

(** How an awaited promise is settled. *)
Inductive settlement := Fulfilled | Rejected.

(** The callbacks the form hands to [setTimeout]: [resolve] of the promise
    that [submitForm] awaits (the continuation of [submitForm] holds
    [originalText]), and the three steps of a notification. *)
Inductive task :=
| Resolve (originalText : string)
| AnimateIn (n : nat)
| SlideOut (n : nat)
| Detach (n : nat).

(** The form and what its handlers touch.  [dom] is the tree of the form
    element; [timers] holds the pending timers with the time they are due
    at; [submitCalls] counts the calls of [submitForm] (ghost).
    [resetShadowed] says whether the form has a control whose [name] or
    [id] is [reset]: the property [form.reset] is then that control and
    not the method. *)
Record state := State {
  fields : list field;
  dom : node;
  submitBtn : option button;
  notifications : list notification;
  console : list string;
  now : Z;
  timers : list (Z * task);
  submitCalls : nat;
  resetShadowed : bool
}.

Definition with_fields (x : list field) (s : state) : state :=
  State x (dom s) (submitBtn s) (notifications s) (console s) (now s)
        (timers s) (submitCalls s) (resetShadowed s).
Definition with_dom (x : node) (s : state) : state :=
  State (fields s) x (submitBtn s) (notifications s) (console s) (now s)
        (timers s) (submitCalls s) (resetShadowed s).
Definition with_submitBtn (x : option button) (s : state) : state :=
  State (fields s) (dom s) x (notifications s) (console s) (now s)
        (timers s) (submitCalls s) (resetShadowed s).
Definition with_notifications (x : list notification) (s : state) : state :=
  State (fields s) (dom s) (submitBtn s) x (console s) (now s)
        (timers s) (submitCalls s) (resetShadowed s).
Definition with_console (x : list string) (s : state) : state :=
  State (fields s) (dom s) (submitBtn s) (notifications s) x (now s)
        (timers s) (submitCalls s) (resetShadowed s).
Definition with_now (x : Z) (s : state) : state :=
  State (fields s) (dom s) (submitBtn s) (notifications s) (console s) x
        (timers s) (submitCalls s) (resetShadowed s).
Definition with_timers (x : list (Z * task)) (s : state) : state :=
  State (fields s) (dom s) (submitBtn s) (notifications s) (console s)
        (now s) x (submitCalls s) (resetShadowed s).
Definition with_submitCalls (x : nat) (s : state) : state :=
  State (fields s) (dom s) (submitBtn s) (notifications s) (console s)
        (now s) (timers s) x (resetShadowed s).

Definition set_borderColor (c : string) (f : field) : field :=
  Field (localName f) (required f) (type f) (value f) (defaultValue f)
        (parentNode f) c.
Definition set_value (v : jsstring) (f : field) : field :=
  Field (localName f) (required f) (type f) v (defaultValue f)
        (parentNode f) (borderColor f).

(** The keys of the elements of a tree, and of a list of trees. *)
Fixpoint keys (n : node) : list nat :=
  match n with
  | ErrorNode _ => []
  | Elem k ch => k :: concat (map keys ch)
  end.

Definition keys_in (ch : list node) : list nat := concat (map keys ch).

(** The [.form__error] elements of a tree in tree order, the order in
    which [querySelector] looks at them. *)
Fixpoint errors_of (n : node) : list errorDiv :=
  match n with
  | ErrorNode e => [e]
  | Elem _ ch => concat (map errors_of ch)
  end.

Definition errors_in (ch : list node) : list errorDiv :=
  concat (map errors_of ch).

(** The first result among those of the elements of a list. *)
Definition first_some {X Y} (f : X → option Y) : list X → option Y :=
  fix go l :=
    match l with
    | [] => None
    | x :: rest => match f x with Some y => Some y | None => go rest end
    end.

(** The children of the element of key [p]. *)
Fixpoint find_box (p : nat) (n : node) : option (list node) :=
  match n with
  | ErrorNode _ => None
  | Elem k ch => if Nat.eqb k p then Some ch else first_some (find_box p) ch
  end.

Definition find_in (p : nat) (ch : list node) : option (list node) :=
  first_some (find_box p) ch.

(** The element of key [p] lies inside the element of key [q]. *)
Fixpoint inside (p q : nat) (n : node) : bool :=
  match n with
  | ErrorNode _ => false
  | Elem k ch =>
      (Nat.eqb k q && bool_decide (p ∈ keys_in ch)) || existsb (inside p q) ch
  end.

(** [parent.querySelector('.form__error')] followed by [remove()] on what
    it finds: the first [.form__error] in tree order among the
    descendants goes; [None] when there is none.  [replace_first rm]
    replaces the first tree of a list for which [rm] has a result by that
    result. *)
Definition replace_first (rm : node → option (list node))
  : list node → option (list node) :=
  fix go l :=
    match l with
    | [] => None
    | x :: rest =>
        match rm x with
        | Some xs => Some (xs ++ rest)
        | None => cons x <$> go rest
        end
    end.

Fixpoint remove_first (n : node) : option (list node) :=
  match n with
  | ErrorNode _ => Some []
  | Elem k ch => (λ ch', [Elem k ch']) <$> replace_first remove_first ch
  end.

Definition remove_first_in (ch : list node) : option (list node) :=
  replace_first remove_first ch.

(** What [clearFieldError] does to the children of the parent. *)
Definition clear_first (ch : list node) : list node :=
  default ch (remove_first_in ch).

(** The children of the element of key [p] become [g] of what they
    were. *)
Fixpoint update_box (p : nat) (g : list node → list node) (n : node) : node :=
  match n with
  | ErrorNode e => ErrorNode e
  | Elem k ch =>
      if Nat.eqb k p then Elem k (g ch) else Elem k (map (update_box p g) ch)
  end.

(** The [.form__error] elements below the element of key [p], in tree
    order. *)
Definition errorsIn (p : nat) (s : state) : list errorDiv :=
  from_option errors_in [] (find_box p (dom s)).

(** [setTimeout(task, delay)]. *)
Definition setTimeout (tk : task) (delay : Z) (s : state) : state :=
  with_timers (timers s ++ [(now s + delay, tk)]) s.

Definition isValidEmail (email : jsstring) : bool := test emailRegex email.

(** [clearFieldError(field)], for the field at index [i]: the first
    [.form__error] among the descendants of the parent is removed, if
    there is one. *)
Definition clearFieldError (i : nat) (s : state) : state :=
  match fields s !! i with
  | None => s
  | Some field =>
      let s1 := with_dom (update_box (parentNode field) clear_first (dom s)) s in
      with_fields (alter (set_borderColor "") i (fields s1)) s1
  end.

(** [parent.appendChild(errorDiv)]. *)
Definition appendChild (e : errorDiv) (ch : list node) : list node :=
  ch ++ [ErrorNode e].

Definition showFieldError (i : nat) (message : string) (s : state) : state :=
  let s1 := clearFieldError i s in
  match fields s1 !! i with
  | None => s1
  | Some field =>
      let errorDiv :=
        {| className := "form__error"; textContent := message;
           color := "#ef4444"; fontSize := "0.875rem";
           marginTop := "0.25rem" |} in
      let s2 :=
        with_dom (update_box (parentNode field) (appendChild errorDiv) (dom s1))
                 s1 in
      with_fields (alter (set_borderColor "#ef4444") i (fields s2)) s2
  end.

(** The body of the [requiredFields.forEach] callback, for the field at
    index [i]. *)
Definition validateField (i : nat) (acc : state * bool) : state * bool :=
  let '(s, isValid) := acc in
  match fields s !! i with
  | None => acc
  | Some field =>
      if negb (truthy (trim (value field))) then
        (showFieldError i "This field is required" s, false)
      else if String.eqb (type field) "email"
              && negb (isValidEmail (value field)) then
        (showFieldError i "Please enter a valid email address" s, false)
      else
        (clearFieldError i s, isValid)
  end.

(** The loop over [form.querySelectorAll('[required]')]: the controls from
    index [i] on, those without the attribute skipped. *)
Fixpoint validateFrom (i : nat) (controls : list field) (acc : state * bool)
  : state * bool :=
  match controls with
  | [] => acc
  | f :: rest =>
      validateFrom (S i) rest (if required f then validateField i acc else acc)
  end.

Definition validateForm (s : state) : state * bool :=
  validateFrom 0 (fields s) (s, true).

(** [showNotification(message, type)]. *)
Definition showNotification (message type : string) (s : state) : state :=
  let notification :=
    {| n_className := "notification notification--" +:+ type;
       n_background := if String.eqb type "success" then "#10b981" else "#ef4444";
       n_transform := "translateX(100%)";
       n_textContent := message;
       attached := true |} in
  let n := length (notifications s) in
  let s1 := with_notifications (notifications s ++ [notification]) s in
  let s2 := setTimeout (AnimateIn n) 100 s1 in
  setTimeout (SlideOut n) 5000 s2.

Definition showSuccessMessage (s : state) : state :=
  showNotification "Message sent successfully! I'll get back to you soon."
                   "success" s.

Definition showErrorMessage (s : state) : state :=
  showNotification "Something went wrong. Please try again later." "error" s.

(** [form.reset()], the method. *)
Definition reset (s : state) : state :=
  with_fields (map (λ f, set_value (defaultValue f) f) (fields s)) s.

(** The label of the loading state:
    [<i class="fas fa-spinner fa-spin"></i> Sending...]. *)
Definition loadingText : string :=
  "<i class=" +:+ String (Ascii.ascii_of_nat 34) "fas fa-spinner fa-spin"
  +:+ String (Ascii.ascii_of_nat 34) "></i> Sending...".

(** [submitForm] up to its [await]: the button enters the loading state
    and the executor of the promise hands [resolve] to [setTimeout].
    Without a submit button the first property access throws, which
    rejects the promise the async function returns. *)
Definition submitForm (s : state) : state :=
  let s := with_submitCalls (S (submitCalls s)) s in
  match submitBtn s with
  | None => s
  | Some btn =>
      let originalText := innerHTML btn in
      let s1 :=
        with_submitBtn
          (Some {| innerHTML := loadingText; disabled := true |}) s in
      setTimeout (Resolve originalText) 2000 s1
  end.

(** The [catch] block. *)
Definition catch (s : state) : state :=
  with_console (console (showErrorMessage s) ++ ["Form submission error:"])
               (showErrorMessage s).

(** The rest of the [try] block after the [await]:
    [this.showSuccessMessage(); this.form.reset();].  When a control
    shadows [form.reset], the call throws a [TypeError] (the control is
    not a function) after the success notification is shown, and the
    [catch] block runs. *)
Definition try_rest (s : state) : state :=
  let s1 := showSuccessMessage s in
  if resetShadowed s1 then catch s1 else reset s1.

(** [submitForm] from its [await] on, by how the awaited promise was
    settled: the rest of the [try] block or the [catch] block, then the
    [finally] block. *)
Definition submitForm_resume (outcome : settlement) (originalText : string)
  (s : state) : state :=
  let s1 :=
    match outcome with
    | Fulfilled => try_rest s
    | Rejected => catch s
    end in
  with_submitBtn (Some {| innerHTML := originalText; disabled := false |}) s1.

Definition handleSubmit (s : state) : state :=
  let '(s1, valid) := validateForm s in
  if valid then submitForm s1 else s1.

(** [addInputValidation] registers its listeners on the elements that
    [form.querySelectorAll('input, textarea')] finds. *)
Definition hasListeners (f : field) : bool :=
  String.eqb (localName f) "input" || String.eqb (localName f) "textarea".

(** The bodies of the [blur] and [input] listeners. *)
Definition blur (i : nat) (s : state) : state :=
  match fields s !! i with
  | None => s
  | Some input =>
      if required input && negb (truthy (trim (value input))) then
        showFieldError i "This field is required" s
      else if String.eqb (type input) "email" && truthy (value input)
              && negb (isValidEmail (value input)) then
        showFieldError i "Please enter a valid email address" s
      else clearFieldError i s
  end.

Definition input (i : nat) (s : state) : state := clearFieldError i s.

(** An event on the control at index [i]: its listener runs if the
    control has one. *)
Definition dispatch (listener : nat → state → state) (i : nat) (s : state)
  : state :=
  match fields s !! i with
  | None => s
  | Some f => if hasListeners f then listener i s else s
  end.

Definition set_notification (n : nat) (f : notification → notification)
  (s : state) : state :=
  with_notifications (alter f n (notifications s)) s.

(** What a timer's callback does.  [resolve] fulfils the awaited promise,
    and the continuation of [submitForm] runs. *)
Definition run_task (tk : task) (s : state) : state :=
  match tk with
  | Resolve originalText => submitForm_resume Fulfilled originalText s
  | AnimateIn n =>
      set_notification n
        (λ x, Notification (n_className x) (n_background x) "translateX(0)"
                           (n_textContent x) (attached x)) s
  | SlideOut n =>
      setTimeout (Detach n) 300
        (set_notification n
           (λ x, Notification (n_className x) (n_background x)
                              "translateX(100%)" (n_textContent x) (attached x)) s)
  | Detach n =>
      set_notification n
        (λ x, Notification (n_className x) (n_background x) (n_transform x)
                           (n_textContent x) false) s
  end.

(** The timer that is due first (the older one when two are due together),
    and the others. *)
Fixpoint earliest (ts : list (Z * task))
  : option ((Z * task) * list (Z * task)) :=
  match ts with
  | [] => None
  | t :: rest =>
      match earliest rest with
      | None => Some (t, [])
      | Some (t', rest') =>
          if t.1 <=? t'.1 then Some (t, rest) else Some (t', t :: rest')
      end
  end.

(** The event loop runs the next timer, no earlier than it is due. *)
Definition fire_next (s : state) : option state :=
  match earliest (timers s) with
  | None => None
  | Some ((due, tk), rest) =>
      Some (run_task tk (with_now (Z.max (now s) due) (with_timers rest s)))
  end.

(** What happens to the form: a submit, a control losing the focus, the
    user changing the value of a control (the [input] event follows), the
    next timer firing, time passing. *)
Inductive event :=
| Submit
| Blur (i : nat)
| Input (i : nat) (v : jsstring)
| Timeout
| Elapse (d : Z).

Definition step (s : state) (ev : event) : state :=
  match ev with
  | Submit => handleSubmit s
  | Blur i => dispatch blur i s
  | Input i v =>
      dispatch input i (with_fields (alter (set_value v) i (fields s)) s)
  | Timeout => default s (fire_next s)
  | Elapse d => with_now (now s + Z.max 0 d) s
  end.

Definition run (evs : list event) (s : state) : state := foldl step s evs.

(** The page as loaded: nothing pending, nothing shown. *)
Definition loaded (form : node) (controls : list field) (btn : option button)
  (shadowed : bool) : state :=
  {| fields := controls; dom := form; submitBtn := btn; notifications := [];
     console := []; now := 0; timers := []; submitCalls := 0;
     resetShadowed := shadowed |}.

(** What validation asks of a required control. *)
Definition acceptable (f : field) : bool :=
  truthy (trim (value f))
  && (negb (String.eqb (type f) "email") || isValidEmail (value f)).

(** The message under a control that fails validation. *)
Definition message_for (f : field) : string :=
  if truthy (trim (value f)) then "Please enter a valid email address"
  else "This field is required".


(** What validation leaves alone. *)
Definition rest_of (s : state) :=
  (submitBtn s, notifications s, console s, now s, timers s, submitCalls s,
   resetShadowed s).

(** A control without its border colour, the one property of a control
    that validation writes. *)
Definition data (f : field) : field := set_borderColor "" f.

(** The inline error [showFieldError] appends for a message. *)
Definition errorDiv_of (message : string) : errorDiv :=
  ErrorDiv "form__error" message "#ef4444" "0.875rem" "0.25rem".

(** [controls] are the controls of the form [l0] from index [i] on. *)
Definition segment (l0 : list field) (i : nat) (controls : list field) : Prop :=
  ∀ k f0, controls !! k = Some f0 → l0 !! (i + k)%nat = Some f0.


(** A function on the children of an element that changes
    [.form__error] leaves only: the elements keep their keys and their
    places in one another. *)
Definition tame (g : list node → list node) : Prop :=
  ∀ ch, keys_in (g ch) = keys_in ch
        ∧ ∀ p q, existsb (inside p q) (g ch) = existsb (inside p q) ch.

(** What removing the first inline error of a tree, or of a list of
    trees, comes to: the first error in tree order goes, and the elements
    stay as they are. *)
Definition remove_first_ok (n : node) : Prop :=
  match remove_first n with
  | None => errors_of n = []
  | Some l =>
      errors_of n ≠ [] ∧ errors_in l = tail (errors_of n)
      ∧ keys_in l = keys n
      ∧ ∀ p q, existsb (inside p q) l = inside p q n
  end.

Definition remove_first_in_ok (ch : list node) : Prop :=
  match remove_first_in ch with
  | None => errors_in ch = []
  | Some l =>
      errors_in ch ≠ [] ∧ errors_in l = tail (errors_in ch)
      ∧ keys_in l = keys_in ch
      ∧ ∀ p q, existsb (inside p q) l = existsb (inside p q) ch
  end.


(** The parents of the controls. *)
Definition parents (s : state) : list nat := parentNode <$> fields s.

(** The parents of the controls lie apart: none inside another. *)
Definition parents_apart (s : state) : Prop :=
  ∀ p q, p ∈ parents s → q ∈ parents s → inside p q (dom s) = false.

(** Below the parent of every control there is at most one inline
    error. *)
Definition tidy_errors (s : state) : Prop :=
  ∀ p, p ∈ parents s → (length (errorsIn p s) ≤ 1)%nat.

(** One required control, empty, alone in its group: the form (key 9)
    holds the group (key 0) of the control. *)
Definition lonely_form : state :=
  loaded (Elem 9 [Elem 0 []])
         [Field "input" true "text" [] [] 0 ""]
         (Some (Button "Send" false)) false.

(** Two required controls in one group, the first empty, the second
    filled in. *)
Definition crowded_form : state :=
  loaded (Elem 9 [Elem 0 []])
         [Field "input" true "text" [] [] 0 "";
          Field "textarea" true "textarea" (of_string "Hi") [] 0 ""]
         (Some (Button "Send" false)) false.



(** Two required controls, both empty: the first in a group (key 0), the
    second a child of the form itself (key 9), which contains the
    group. *)
Definition nested_form : state :=
  loaded (Elem 9 [Elem 0 []])
         [Field "input" true "text" [] [] 0 "";
          Field "textarea" true "textarea" [] [] 9 ""]
         (Some (Button "Send" false)) false.


(** The controls of Jane's message, all valid, and the tree of their
    form: three groups. *)
Definition jane_controls : list field :=
  [Field "input" true "text" (of_string "Jane") [] 0 "";
   Field "input" true "email" (of_string "jane@x.com") [] 1 "";
   Field "textarea" true "textarea" (of_string "Hi") [] 2 ""].

Definition jane_dom : node := Elem 9 [Elem 0 []; Elem 1 []; Elem 2 []].

Definition jane_form : state :=
  loaded jane_dom jane_controls (Some (Button "Send Message" false)) false.






End ContactForm.

(* ===================================================================== *)
(** ** Debounce *)
(* ===================================================================== *)

Module Debounce.

(** The delay that [setTimeout(handler, wait)] uses, for an integer
    [wait]: the platform converts the argument to a signed 32-bit integer
    (values from [2^31] on wrap around) and takes zero for what is
    negative after that. *)
Definition to_int32 (z : Z) : Z := (z + 2 ^ 31) mod 2 ^ 32 - 2 ^ 31.

Definition delay_of (wait : Z) : Z := Z.max 0 (to_int32 wait).

Section Wrapper.

(** The arguments of a call, [...args]. *)
Context {A : Type}.

(** A pending timer of the wrapper: its id, when it is due, and the
    arguments its [later] closure holds. *)
Record timer := Timer {
  timer_id : nat;
  due : Z;
  args : A
}.

(** The clock, the next timer id, the pending timers whose callback is a
    [later] of this wrapper, the variable [timeout] of the closure
    ([None] is [undefined]), and the calls of [func] so far with their
    times. *)
Record state := State {
  now : Z;
  nextId : nat;
  pending : list timer;
  timeout : option nat;
  calls : list (Z * A)
}.

(** [clearTimeout(id)]; an id that names no pending timer does nothing. *)
Definition clearTimeout (id : option nat) (s : state) : state :=
  {| now := now s; nextId := nextId s;
     pending := filter (λ tm, Some (timer_id tm) ≠ id) (pending s);
     timeout := timeout s; calls := calls s |}.

(** [setTimeout(later, wait)] with [later] holding [a]: the timer is due
    [delay_of wait] from now.  Returns the id. *)
Definition setTimeout (a : A) (wait : Z) (s : state) : nat * state :=
  (nextId s,
   {| now := now s; nextId := S (nextId s);
      pending := pending s ++ [Timer (nextId s) (now s + delay_of wait) a];
      timeout := timeout s; calls := calls s |}).

(** [executedFunction(...args)], the function [debounce(func, wait)]
    returns. *)
Definition executedFunction (wait : Z) (a : A) (s : state) : state :=
  let s1 := clearTimeout (timeout s) s in
  let '(id, s2) := setTimeout a wait s1 in
  {| now := now s2; nextId := nextId s2; pending := pending s2;
     timeout := Some id; calls := calls s2 |}.

(** [later()]: [clearTimeout(timeout); func(...args)]. *)
Definition later (a : A) (s : state) : state :=
  let s1 := clearTimeout (timeout s) s in
  {| now := now s1; nextId := nextId s1; pending := pending s1;
     timeout := timeout s1; calls := calls s1 ++ [(now s1, a)] |}.

(** The pending timer that is due first (the older one on a tie). *)
Fixpoint earliest (ts : list timer) : option timer :=
  match ts with
  | [] => None
  | tm :: rest =>
      match earliest rest with
      | None => Some tm
      | Some tm' => if due tm <=? due tm' then Some tm else Some tm'
      end
  end.

(** A timer fires: it leaves the queue, the clock is at its due time (or
    later already), and its callback runs. *)
Definition fire (tm : timer) (s : state) : state :=
  later (args tm)
    {| now := Z.max (now s) (due tm); nextId := nextId s;
       pending := filter (λ x, timer_id x ≠ timer_id tm) (pending s);
       timeout := timeout s; calls := calls s |}.

(** The event loop runs up to time [t]: the timers due by [t] fire in
    order. *)
Fixpoint fire_due (fuel : nat) (t : Z) (s : state) : state :=
  match fuel with
  | O => s
  | S fuel' =>
      match earliest (pending s) with
      | Some tm => if due tm <=? t then fire_due fuel' t (fire tm s) else s
      | None => s
      end
  end.

Definition advance (t : Z) (s : state) : state :=
  let s1 := fire_due (length (pending s)) t s in
  {| now := Z.max (now s1) t; nextId := nextId s1; pending := pending s1;
     timeout := timeout s1; calls := calls s1 |}.

(** The clock is at [t], or later already. *)
Definition at_time (t : Z) (s : state) : state :=
  {| now := Z.max (now s) t; nextId := nextId s; pending := pending s;
     timeout := timeout s; calls := calls s |}.

(** The wrapper is called with [a] at time [t].  A call runs within its
    task and fires no timer, not even one that is due: timers fire when
    the event loop runs ([advance]), between tasks. *)
Definition call_at (wait : Z) (s : state) (c : Z * A) : state :=
  executedFunction wait c.2 (at_time c.1 s).

(** The wrapper as [debounce] returns it at time [t0]. *)
Definition fresh (t0 : Z) (id0 : nat) : state :=
  {| now := t0; nextId := id0; pending := []; timeout := None; calls := [] |}.

(** Calls in time order, [prev] being the time before the first. *)
Fixpoint in_order (prev : Z) (sched : list (Z * A)) : Prop :=
  match sched with
  | [] => True
  | (t, _) :: rest => prev ≤ t ∧ in_order t rest
  end.

(** What a trailing-edge debounce of delay [W] owes for the calls [sched]
    by time [T]: a call is passed on, [W] later, when the next call comes
    no sooner than that (or, for the last call, when [T] is no sooner than
    that). *)
Fixpoint trailing (W : Z) (T : Z) (sched : list (Z * A)) : list (Z * A) :=
  match sched with
  | [] => []
  | (t, a) :: rest =>
      let next := match rest with [] => T | (t', _) :: _ => t' end in
      if t + W <=? next then (t + W, a) :: trailing W T rest
      else trailing W T rest
  end.

(** The wrapper at time [clock], after a call at [t] with [a] whose timer
    has not fired: one timer, due [W] after the call, holding [a]; [cs]
    are the calls of [func] so far. *)
Definition armed (W : Z) (cs : list (Z * A)) (t : Z) (a : A) (clock : Z)
  (s : state) : Prop :=
  ∃ id n, s = State clock n [Timer id (t + W) a] (Some id) cs.

End Wrapper.
Arguments timer : clear implicits.
Arguments state : clear implicits.

(** What happens to a wrapper: it is called at a time, or the event loop
    runs up to a time and the timers due by then fire. *)
Inductive op (A : Type) :=
| Call (t : Z) (a : A)
| Tick (t : Z).
Arguments Call {A} t a.
Arguments Tick {A} t.

Definition run_op {A} (wait : Z) (s : state A) (o : op A) : state A :=
  match o with
  | Call t a => call_at wait s (t, a)
  | Tick t => advance t s
  end.

Definition run_ops {A} (wait : Z) (ops : list (op A)) (s : state A) : state A :=
  foldl (run_op wait) s ops.

Definition is_call {A} (o : op A) : bool :=
  match o with Call _ _ => true | Tick _ => false end.

(** No timer or one, and then the one the variable [timeout] names; and
    the calls of [func] and the pending timers together are no more than
    [n]. *)
Definition at_most_one {A} (n : nat) (s : state A) : Prop :=
  (pending s = []
   ∨ ∃ tm, pending s = [tm] ∧ timeout s = Some (timer_id tm))
  ∧ (length (calls s) + length (pending s) ≤ n)%nat.



(** Calls in tasks of their own with the event loop idle in between:
    before every call the loop has run up to the time of the call. *)
Fixpoint idle_loop {A} (sched : list (Z * A)) : list (op A) :=
  match sched with
  | [] => []
  | (t, a) :: rest => Tick t :: Call t a :: idle_loop rest
  end.

(** Two bursts and a single call. *)
Definition two_bursts : list (Z * string) :=
  [(0, "a"); (5, "b"); (10, "c"); (40, "d"); (100, "e"); (105, "f")].


End Debounce.

(* ===================================================================== *)
(** ** Skill bars *)
(* ===================================================================== *)

Module SkillBars.
Import Dom.

(** [createSkillBarObserver]: [skillSection] says whether
    [document.querySelector('.about__skills')] found an element (only then
    is anything observed); [skills] are its [.skill] descendants;
    [pending] are the timers set so far, each with the time it is due at
    and the index of the skill it will mark. *)
Record state := State {
  skillSection : bool;
  skills : list element;
  now : Z;
  pending : list (Z * nat)
}.

(** The [skills.forEach((skill, index) => setTimeout(..., index * 200))]
    loop, from the skill at [index] on. *)
Fixpoint stagger (index : nat) (skills : list element) (now : Z)
  (pending : list (Z * nat)) : list (Z * nat) :=
  match skills with
  | [] => pending
  | _ :: rest =>
      stagger (S index) rest now
              (pending ++ [(now + Z.of_nat index * 200, index)])
  end.

(** The callback of [skillObserver] on a batch of entries of the section,
    each given by its [isIntersecting]. *)
Definition skillCallback (entries : list bool) (s : state) : state :=
  foldl (λ s isIntersecting,
           if isIntersecting : bool then
             {| skillSection := skillSection s; skills := skills s;
                now := now s;
                pending := stagger 0 (skills s) (now s) (pending s) |}
           else s)
        s entries.

(** A batch reaches the callback only when the section is observed. *)
Definition deliver (entries : list bool) (s : state) : state :=
  if skillSection s then skillCallback entries s else s.

(** The timer that is due first (the older one on a tie), and the
    others. *)
Fixpoint earliest (ts : list (Z * nat)) : option ((Z * nat) * list (Z * nat)) :=
  match ts with
  | [] => None
  | t :: rest =>
      match earliest rest with
      | None => Some (t, [])
      | Some (t', rest') =>
          if t.1 <=? t'.1 then Some (t, rest) else Some (t', t :: rest')
      end
  end.

(** A timer fires: [skill.classList.add('animate')]. *)
Definition fire (tm : Z * nat) (rest : list (Z * nat)) (s : state) : state :=
  {| skillSection := skillSection s;
     skills := alter (classList_add "animate") tm.2 (skills s);
     now := Z.max (now s) tm.1;
     pending := rest |}.

(** The event loop up to time [t]: the timers due by [t] fire in order. *)
Fixpoint fire_due (fuel : nat) (t : Z) (s : state) : state :=
  match fuel with
  | O => s
  | S fuel' =>
      match earliest (pending s) with
      | Some (tm, rest) =>
          if tm.1 <=? t then fire_due fuel' t (fire tm rest s) else s
      | None => s
      end
  end.

Definition advance (t : Z) (s : state) : state :=
  let s1 := fire_due (length (pending s)) t s in
  {| skillSection := skillSection s1; skills := skills s1;
     now := Z.max (now s1) t; pending := pending s1 |}.

Definition revealed (s : state) (i : nat) : bool :=
  match skills s !! i with
  | Some skill => has_class "animate" skill
  | None => false
  end.

(** Four skills, just loaded. *)
Definition four_skills : state :=
  {| skillSection := true;
     skills := replicate 4 (Element ["skill"] [] []);
     now := 0; pending := [] |}.

End SkillBars.

(* ===================================================================== *)
(** ** Lazy loading of images *)
(* ===================================================================== *)

Module LazyLoading.
Import Dom.

(** An [img[data-src]]: its [src] attribute ([None] when it has none),
    [img.dataset.src], its class list, and whether [imageObserver]
    observes it. *)
Record image := Image {
  src : option string;
  dataSrc : string;
  imgClassList : list string;
  observed : bool
}.

(** [initializeLazyLoading]: every image is observed. *)
Definition initializeLazyLoading (images : list image) : list image :=
  map (λ img, Image (src img) (dataSrc img) (imgClassList img) true) images.

(** The body of the callback for an intersecting entry:
    [img.src = img.dataset.src; img.classList.remove('lazy');
     imageObserver.unobserve(img)]. *)
Definition load (img : image) : image :=
  {| src := Some (dataSrc img); dataSrc := dataSrc img;
     imgClassList := remove "lazy" (imgClassList img);
     observed := false |}.

(** The callback of [imageObserver] on a batch of entries. *)
Definition lazyCallback (entries : list ScrollAnimations.entry)
  (images : list image) : list image :=
  foldl (λ imgs entry,
           if ScrollAnimations.isIntersecting entry
           then alter load (ScrollAnimations.target entry) imgs
           else imgs)
        images entries.

(** The observer reports the images it observes, and no others. *)
Definition deliver (entries : list ScrollAnimations.entry)
  (images : list image) : list image :=
  lazyCallback
    (filter (λ entry,
               observed <$> images !! ScrollAnimations.target entry = Some true)
            entries)
    images.

Definition run (batches : list (list ScrollAnimations.entry))
  (images : list image) : list image :=
  foldl (λ imgs batch, deliver batch imgs) images batches.

(** Two images of the page, before the script runs. *)
Definition two_images : list image :=
  [Image None "a.png" ["lazy"] false;
   Image (Some "placeholder.png") "b.png" ["lazy"; "project__img"] false].

End LazyLoading.

(* ===================================================================== *)
(** ** Feature detection *)
(* ===================================================================== *)

Module FeatureSupport.
Import Dom.

(** [checkFeatureSupport], on the elements of the document and on
    [document.body]; [hasIntersectionObserver] is
    ['IntersectionObserver' in window], [supportsGrid] is
    [CSS.supports('display', 'grid')]. *)
Definition checkFeatureSupport (hasIntersectionObserver supportsGrid : bool)
  (els : list element) (body : element) : list element * element :=
  (if hasIntersectionObserver then els
   else map (λ el, if has_class "animate-on-scroll" el
                   then classList_add "animated" el else el) els,
   if supportsGrid then body else classList_add "no-grid" body).

(** What page load does to the fade elements: the constructor of
    [ScrollAnimations] runs first; [new IntersectionObserver] throws a
    [ReferenceError] where there is no such constructor, before any
    element is tagged, and the listener of [checkFeatureSupport] runs all
    the same. *)
Definition loadFadeElements (hasIntersectionObserver supportsGrid : bool)
  (fadeElements : list element) (body : element) : list element :=
  let tagged :=
    if hasIntersectionObserver
    then ScrollAnimations.createFadeInObserver fadeElements
    else fadeElements in
  (checkFeatureSupport hasIntersectionObserver supportsGrid tagged body).1.

End FeatureSupport.

(* ===================================================================== *)
(** * Properties *)
(* ===================================================================== *)

(** ** Class lists *)

Section ClassListFacts.
Import Dom.

Lemma contains_true c cl : contains c cl = true ↔ c ∈ cl.
Proof. unfold contains. apply bool_decide_eq_true. Qed.

Lemma contains_add_same c cl : contains c (add c cl) = true.
Proof.
  unfold add. destruct (contains c cl) eqn:E; [done|].
  apply contains_true, elem_of_app. right. by apply list_elem_of_singleton.
Qed.

Lemma contains_add_other c d cl :
  c ≠ d → contains c (add d cl) = contains c cl.
Proof.
  intros Hne. unfold add. destruct (contains d cl); [done|].
  unfold contains. apply bool_decide_ext.
  rewrite elem_of_app, list_elem_of_singleton. intuition congruence.
Qed.

Lemma contains_remove_same c cl : contains c (remove c cl) = false.
Proof.
  unfold contains, remove. apply bool_decide_eq_false.
  rewrite list_elem_of_filter. intuition congruence.
Qed.

Lemma contains_remove_other c d cl :
  c ≠ d → contains c (remove d cl) = contains c cl.
Proof.
  intros Hne. unfold contains, remove. apply bool_decide_ext.
  rewrite list_elem_of_filter. intuition congruence.
Qed.

Lemma has_class_add_same c e : has_class c (classList_add c e) = true.
Proof. apply contains_add_same. Qed.

Lemma has_class_add_other c d e :
  c ≠ d → has_class c (classList_add d e) = has_class c e.
Proof. apply contains_add_other. Qed.

Lemma has_class_remove_same c e : has_class c (classList_remove c e) = false.
Proof. apply contains_remove_same. Qed.

Lemma has_class_remove_other c d e :
  c ≠ d → has_class c (classList_remove d e) = has_class c e.
Proof. apply contains_remove_other. Qed.

End ClassListFacts.

(** ** Header blur and active link *)

Section ScrollFacts.
Import Dom Scroll.

(** C6. After [handleHeaderScroll] the header carries [blur-header]
    exactly when the scroll offset is at least 50: for an offset of 50 or
    more it does, for an offset below 50 it does not. *)
Theorem handleHeaderScroll_blur_iff
  (h : element) (secs : list section) (els : list element) (y : Z) :
  ∃ h', handleHeaderScroll (Page (Some h) secs els y)
        = Normal (Page (Some h') secs els y)
        ∧ (has_class "blur-header" h' = true ↔ 50 ≤ y)
        ∧ (has_class "blur-header" h' = false ↔ y < 50).
Proof.
  unfold handleHeaderScroll; simpl.
  destruct (50 <=? y) eqn:E.
  - apply Z.leb_le in E. eexists; split; [reflexivity|].
    rewrite has_class_add_same. split; split; (done || lia).
  - apply Z.leb_gt in E. eexists; split; [reflexivity|].
    rewrite has_class_remove_same. split; split; (done || lia).
Qed.

(** The selector of a section looks at the class [nav__link] and at the
    [href] attribute only, and the handler changes neither. *)
Lemma matches_navLink_add sid e :
  matches_navLink sid (classList_add "active-link" e) = matches_navLink sid e.
Proof.
  unfold matches_navLink. by rewrite has_class_add_other.
Qed.

Lemma matches_navLink_remove sid e :
  matches_navLink sid (classList_remove "active-link" e) = matches_navLink sid e.
Proof.
  unfold matches_navLink. by rewrite has_class_remove_other.
Qed.

Lemma querySelector_fmap sel (els els' : list element) :
  sel <$> els = sel <$> els' → querySelector sel els = querySelector sel els'.
Proof.
  revert els'. induction els as [|e els IH]; intros [|e' els'] H; try done.
  simpl in *. injection H as He Hels. rewrite He, (IH els' Hels). done.
Qed.

Lemma fmap_alter_same {X B} (g : X → B) (f : X → X) k (els : list X) :
  (∀ e, g (f e) = g e) → g <$> alter f k els = g <$> els.
Proof.
  intros Hg. revert k. induction els as [|e els IH]; intros [|k]; try done.
  - cbn. by rewrite Hg.
  - cbn. f_equal. apply IH.
Qed.

Lemma highlightSection_sel y els s sid :
  matches_navLink sid <$> highlightSection y els s = matches_navLink sid <$> els.
Proof.
  unfold highlightSection, optional_add, optional_remove.
  destruct (_ && _); destruct (querySelector _ els); try done.
  - apply fmap_alter_same, matches_navLink_add.
  - apply fmap_alter_same, matches_navLink_remove.
Qed.

Lemma highlight_fold_sel y secs els sid :
  matches_navLink sid <$> foldl (highlightSection y) els secs
  = matches_navLink sid <$> els.
Proof.
  revert els. induction secs as [|s secs IH]; intros els; simpl; [done|].
  by rewrite IH, highlightSection_sel.
Qed.

Lemma querySelector_bound sel (els : list element) k :
  querySelector sel els = Some k → is_Some (els !! k).
Proof.
  revert k. induction els as [|e els IH]; intros k; simpl; [done|].
  destruct (sel e).
  - intros [= <-]. by eexists.
  - destruct (querySelector sel els) as [k'|]; simpl; [|done].
    intros [= <-]. simpl. by apply IH.
Qed.

(** A section whose selector finds another link leaves link [k] alone. *)
Lemma highlightSection_other y els s k :
  querySelector (matches_navLink (id s)) els ≠ Some k →
  highlightSection y els s !! k = els !! k.
Proof.
  intros Hne. unfold highlightSection, optional_add, optional_remove.
  destruct (_ && _); destruct (querySelector _ els) as [k'|]; try done;
    apply list_lookup_alter_ne; congruence.
Qed.

Lemma highlight_fold_other y secs els k :
  Forall (λ s, querySelector (matches_navLink (id s)) els ≠ Some k) secs →
  foldl (highlightSection y) els secs !! k = els !! k.
Proof.
  revert els. induction secs as [|s secs IH]; intros els H; simpl; [done|].
  inversion H as [|? ? Hs Hrest]; subst.
  rewrite IH; [by apply highlightSection_other|].
  eapply Forall_impl; [exact Hrest|]. intros s' Hs'. simpl in Hs'.
  by rewrite (querySelector_fmap _ _ els (highlightSection_sel y els s (id s'))).
Qed.

(** The section's own step leaves its link marked exactly when the test
    of the source holds. *)
Lemma highlightSection_self y els s k :
  querySelector (matches_navLink (id s)) els = Some k →
  ∃ e', highlightSection (y + 200) els s !! k = Some e'
        ∧ (has_class "active-link" e' = true ↔ in_view y s).
Proof.
  intros Hk. destruct (querySelector_bound _ _ _ Hk) as [e He].
  unfold highlightSection, optional_add, optional_remove, in_view. rewrite Hk.
  destruct (_ && _) eqn:E.
  - exists (classList_add "active-link" e). split.
    + by rewrite list_lookup_alter_eq, He.
    + rewrite has_class_add_same. apply andb_true_iff in E as [E1 E2].
      apply Z.ltb_lt in E1. apply Z.leb_le in E2. split; [lia | done].
  - exists (classList_remove "active-link" e). split.
    + by rewrite list_lookup_alter_eq, He.
    + rewrite has_class_remove_same. apply andb_false_iff in E.
      split; [done|]. intros [H1 H2].
      destruct E as [E|E]; [apply Z.ltb_ge in E | apply Z.leb_gt in E]; lia.
Qed.

(** C1, as amended. On a page whose sections have plain ids (no double
    quote, backslash, line break or null character, so that the selector
    built from an id selects by that id), for a section and the link the
    handler selects for it, when no later section selects that same link:
    after [highlightActiveNavLink] the link carries [active-link] exactly
    when [top - 200 < pageYOffset + 200 <= top - 200 + height], the
    interval open on the left and closed on the right. *)
Theorem highlightActiveNavLink_active_iff
  (p : page) (i k : nat) (s : section) :
  plain_ids p →
  sections p !! i = Some s →
  navLink_of p s = Some k →
  (∀ j s', (i < j)%nat → sections p !! j = Some s' →
           navLink_of p s' ≠ Some k) →
  ∃ e', elements (highlightActiveNavLink p) !! k = Some e'
        ∧ (has_class "active-link" e' = true ↔ in_view (pageYOffset p) s).
Proof.
  intros _ Hi Hk Hlater. unfold navLink_of in *.
  unfold highlightActiveNavLink; simpl.
  rewrite <- (take_drop_middle _ _ _ Hi), foldl_app. simpl.
  set (y := pageYOffset p + 200).
  set (els1 := foldl (highlightSection y) (elements p) (take i (sections p))).
  assert (Hsel : ∀ sid, matches_navLink sid <$> els1
                        = matches_navLink sid <$> elements p)
    by (intros; apply highlight_fold_sel).
  destruct (highlightSection_self (pageYOffset p) els1 s k) as (e' & He' & Hiff).
  { rewrite (querySelector_fmap _ _ _ (Hsel (id s))). exact Hk. }
  exists e'. split; [|exact Hiff].
  fold y in He'. rewrite highlight_fold_other; [exact He'|].
  apply Forall_forall. intros s' Hin.
  apply list_elem_of_lookup in Hin as [j Hj]. rewrite lookup_drop in Hj.
  rewrite (querySelector_fmap _ _ els1 (highlightSection_sel y els1 s (id s'))).
  rewrite (querySelector_fmap _ _ _ (Hsel (id s'))).
  apply (Hlater (S i + j)%nat s'); [lia | exact Hj].
Qed.

Lemma highlightActiveNavLink_active_iff_witness :
  ∃ e', elements (highlightActiveNavLink (about_page 300)) !! 0%nat = Some e'
        ∧ (has_class "active-link" e' = true
           ↔ in_view 300 (Section_ "about" 600 400)).
Proof.
  apply (highlightActiveNavLink_active_iff (about_page 300) 0 0
           (Section_ "about" 600 400)).
  - repeat constructor.
  - reflexivity.
  - reflexivity.
  - intros [|j] s' Hlt Hj; [lia | discriminate Hj].
Defined.

(** C1, as the specification states it, fails at both ends of the
    interval.  At [pageYOffset = 200] the look-ahead position 400 is the
    left end of [[top-200, top-200+height) = [400, 800)], and the link is
    not marked; at [pageYOffset = 600] the position 800 is outside of it,
    and the link is marked. *)
Lemma highlightActiveNavLink_closed_left_counterexample :
  let s := Section_ "about" 600 400 in
  (offsetTop s - 200 ≤ 200 + 200 < offsetTop s - 200 + offsetHeight s
   ∧ navLink_of (about_page 200) s = Some 0%nat
   ∧ has_class "active-link"
       <$> elements (highlightActiveNavLink (about_page 200)) !! 0%nat
     = Some false)
  ∧ (¬ (offsetTop s - 200 ≤ 600 + 200 < offsetTop s - 200 + offsetHeight s)
     ∧ navLink_of (about_page 600) s = Some 0%nat
     ∧ has_class "active-link"
         <$> elements (highlightActiveNavLink (about_page 600)) !! 0%nat
       = Some true).
Proof.
  simpl. repeat split; try lia; try reflexivity.
Qed.

End ScrollFacts.

(** ** Missing elements *)

Section NavigationFacts.
Import Dom Navigation.

(** The guarded lookups: without the toggle or the close button the
    feature is skipped. *)
Lemma click_without_button_skipped (p : page) :
  (navToggle p = None → click_navToggle p = Normal p)
  ∧ (navClose p = None → click_navClose p = Normal p).
Proof.
  unfold click_navToggle, click_navClose. split; intros ->; reflexivity.
Qed.

(** C3. The handlers that dereference [navMenu], [.header] and [#header]
    do so without an existence check: on a page without the navigation
    menu the Escape key, a click on the toggle button, on the close button
    and on a navigation link throw; without an element of class [header],
    [smoothScrollToSection] throws; without the element [#header],
    [handleHeaderScroll] throws. *)
Theorem missing_element_faults
  (toggle close : element) (hh st target : option Z) (is_btn : bool)
  (secs : list Scroll.section) (els : list element) (y : Z)
  (menu : option element) (t c : option element) :
  keydown "Escape" is_btn (Page None t c hh st) = TypeError
  ∧ click_navToggle (Page None (Some toggle) c hh st) = TypeError
  ∧ click_navClose (Page None t (Some close) hh st) = TypeError
  ∧ click_navLink_close (Page None t c hh st) = TypeError
  ∧ smoothScrollToSection target (Page menu t c None st) = TypeError
  ∧ Scroll.handleHeaderScroll (Scroll.Page None secs els y) = TypeError.
Proof. repeat split. Qed.

End NavigationFacts.

(** ** Project filter *)

Section ProjectFilterFacts.
Import Dom ProjectFilter.

Lemma shouldShow_iff (filter category : option string) :
  shouldShow filter category = true
  ↔ filter = Some "all" ∨ category = filter.
Proof.
  unfold shouldShow.
  rewrite orb_true_iff, !bool_decide_eq_true. done.
Qed.

(** The loop shows or hides every card by its own category and appends a
    100 ms timer for each card it shows. *)
Lemma filterCards_spec filter (cards : list element) :
  ∀ i tms, ∃ new,
    filterCards filter i cards tms
    = ((λ c, if shouldShow filter (getAttribute "data-category" (attributes c))
             then classList_remove "hide" c else classList_add "hide" c)
         <$> cards,
       tms ++ new)
    ∧ ∀ tm, tm ∈ new ↔
            delay tm = 100
            ∧ ∃ c, (i ≤ card tm)%nat ∧ cards !! (card tm - i)%nat = Some c
                   ∧ shouldShow filter
                       (getAttribute "data-category" (attributes c)) = true.
Proof.
  induction cards as [|c cards IH]; intros i tms.
  - exists []. split; [by rewrite app_nil_r|].
    intros tm. split; [by intros ?%elem_of_nil|]. by intros (_ & ? & _ & ? & _).
  - simpl. destruct (shouldShow filter _) eqn:E.
    + destruct (IH (S i) (tms ++ [Timer 100 i])) as (new & -> & Hnew).
      exists (Timer 100 i :: new). split.
      { by rewrite <- app_assoc. }
      intros tm. rewrite elem_of_cons, Hnew. split.
      * intros [-> | (Hd & c' & Hle & Hc' & Hs)].
        -- split; [done|]. exists c. simpl. rewrite Nat.sub_diag. done.
        -- split; [done|]. exists c'. split; [lia|]. split; [|done].
           replace (card tm - i)%nat with (S (card tm - S i)) by lia. done.
      * intros (Hd & c' & Hle & Hc' & Hs).
        destruct (decide (card tm = i)) as [Heq|Hne].
        -- left. destruct tm as [d k]; simpl in *. by subst.
        -- right. split; [done|]. exists c'. split; [lia|]. split; [|done].
           replace (card tm - i)%nat with (S (card tm - S i)) in Hc' by lia.
           done.
    + destruct (IH (S i) tms) as (new & -> & Hnew).
      exists new. split; [done|].
      intros tm. rewrite Hnew. split.
      * intros (Hd & c' & Hle & Hc' & Hs).
        split; [done|]. exists c'. split; [lia|]. split; [|done].
        replace (card tm - i)%nat with (S (card tm - S i)) by lia. done.
      * intros (Hd & c' & Hle & Hc' & Hs).
        destruct (decide (card tm = i)) as [Heq|Hne].
        -- rewrite Heq, Nat.sub_diag in Hc'. simpl in Hc'.
           injection Hc' as <-. congruence.
        -- split; [done|]. exists c'. split; [lia|]. split; [|done].
           replace (card tm - i)%nat with (S (card tm - S i)) in Hc' by lia.
           done.
Qed.

(** C7. After a click on a filter button, a card is shown ([hide]
    removed) exactly when the button's filter value is ["all"] or equals
    the card's category, and hidden ([hide] added) otherwise; the timers
    the click adds all have a delay of 100 ms, there is one for the card
    exactly when it is shown, and when it fires it resets the card's
    inline [transform] and [opacity]. *)
Theorem handleFilter_card_shown_iff
  (pf : t) (b i : nat) (btn card0 : element) :
  filterButtons pf !! b = Some btn →
  projectCards pf !! i = Some card0 →
  let filter := getAttribute "data-filter" (attributes btn) in
  let category := getAttribute "data-category" (attributes card0) in
  let shown := filter = Some "all" ∨ category = filter in
  ∃ card' new,
    projectCards (handleFilter b pf) !! i = Some card'
    ∧ (has_class "hide" card' = false ↔ shown)
    ∧ (has_class "hide" card' = true ↔ ¬ shown)
    ∧ timers (handleFilter b pf) = timers pf ++ new
    ∧ (∀ tm, tm ∈ new → delay tm = 100)
    ∧ (Timer 100 i ∈ new ↔ shown)
    ∧ ∃ card'',
        projectCards (fire (Timer 100 i) (handleFilter b pf)) !! i = Some card''
        ∧ classList card'' = classList card'
        ∧ getAttribute "transform" (style card'') = Some "translateY(0)"
        ∧ getAttribute "opacity" (style card'') = Some "1".
Proof.
  intros Hb Hi filter category shown.
  unfold handleFilter. rewrite Hb. fold filter.
  unfold filterProjects. cbn [projectCards timers updateActiveButton].
  destruct (filterCards_spec filter (projectCards pf) 0 (timers pf))
    as (new & Heq & Hnew).
  rewrite Heq. cbn [projectCards timers fire ProjectFilter.card].
  eexists _, new. split.
  { rewrite list_lookup_fmap, Hi. reflexivity. }
  fold category.
  assert (Hshown : shouldShow filter category = true ↔ shown)
    by apply shouldShow_iff.
  split; [|split; [|split; [done|split; [|split]]]].
  - destruct (shouldShow filter category).
    + rewrite has_class_remove_same. tauto.
    + rewrite has_class_add_same. split; [done|]. intros H.
      apply Hshown in H. done.
  - destruct (shouldShow filter category).
    + rewrite has_class_remove_same. split; [done|]. tauto.
    + rewrite has_class_add_same. split; [|done]. intros _ H.
      apply Hshown in H. done.
  - intros tm Htm. by apply Hnew in Htm as [? _].
  - rewrite Hnew. cbn [delay ProjectFilter.card]. rewrite <- Hshown. split.
    + intros (_ & c & _ & Hc & Hs). rewrite Nat.sub_0_r, Hi in Hc.
      injection Hc as <-. exact Hs.
    + intros Hs. split; [done|]. exists card0. rewrite Nat.sub_0_r.
      split; [lia|]. split; [exact Hi | exact Hs].
  - eexists. split.
    { rewrite list_lookup_alter_eq, list_lookup_fmap, Hi. reflexivity. }
    repeat split.
Qed.

Lemma handleFilter_card_shown_iff_witness :
  ∃ card' new,
    projectCards (handleFilter 1 gallery) !! 1%nat = Some card'
    ∧ (has_class "hide" card' = false
       ↔ Some "web" = Some "all" ∨ Some "design" = Some "web")
    ∧ (has_class "hide" card' = true
       ↔ ¬ (Some "web" = Some "all" ∨ Some "design" = Some "web"))
    ∧ timers (handleFilter 1 gallery) = timers gallery ++ new
    ∧ (∀ tm, tm ∈ new → delay tm = 100)
    ∧ (Timer 100 1 ∈ new
       ↔ Some "web" = Some "all" ∨ Some "design" = Some "web")
    ∧ ∃ card'',
        projectCards (fire (Timer 100 1) (handleFilter 1 gallery)) !! 1%nat
        = Some card''
        ∧ classList card'' = classList card'
        ∧ getAttribute "transform" (style card'') = Some "translateY(0)"
        ∧ getAttribute "opacity" (style card'') = Some "1".
Proof.
  apply (handleFilter_card_shown_iff gallery 1 1
           (Element ["filter__btn"] [("data-filter", "web")] [])
           (Element ["project__card"] [("data-category", "design")] []));
    reflexivity.
Defined.

Lemma updateActiveButton_length b pf :
  length (filterButtons (updateActiveButton b pf)) = length (filterButtons pf).
Proof.
  unfold updateActiveButton; simpl. by rewrite length_alter, length_map.
Qed.

Lemma filterProjects_buttons filter pf :
  filterButtons (filterProjects filter pf) = filterButtons pf.
Proof.
  unfold filterProjects. by destruct (filterCards _ _ _ _).
Qed.

Lemma handleFilter_length b pf :
  length (filterButtons (handleFilter b pf)) = length (filterButtons pf).
Proof.
  unfold handleFilter. destruct (filterButtons pf !! b); [|done].
  by rewrite filterProjects_buttons, updateActiveButton_length.
Qed.

Lemma handleFilter_fold_length clicks pf :
  length (filterButtons (foldl (λ pf c, handleFilter c pf) pf clicks))
  = length (filterButtons pf).
Proof.
  revert pf. induction clicks as [|c clicks IH]; intros pf; simpl; [done|].
  by rewrite IH, handleFilter_length.
Qed.

Lemma filter_none {B} (P : B → Prop) `{∀ x, Decision (P x)} (l : list B) :
  Forall (λ x, ¬ P x) l → filter P l = [].
Proof.
  induction 1 as [|x l Hx _ IH]; [done|]. by rewrite filter_cons_False.
Qed.

(** A list in which exactly the element at [b] satisfies [P] has one
    element that satisfies [P]. *)
Lemma filter_singleton_length {B} (P : B → Prop) `{∀ x, Decision (P x)}
  (l : list B) (b : nat) :
  (b < length l)%nat →
  (∀ j x, l !! j = Some x → (P x ↔ j = b)) →
  length (filter P l) = 1%nat.
Proof.
  revert b. induction l as [|x l IH]; intros b Hb HP; simpl in *; [lia|].
  destruct b as [|b].
  - rewrite filter_cons_True by (by apply (HP 0%nat)).
    rewrite filter_none; [done|].
    apply Forall_forall. intros z Hz Pz.
    apply list_elem_of_lookup in Hz as [j Hj].
    by apply (HP (S j)) in Pz.
  - rewrite filter_cons_False.
    + apply (IH b); [lia|]. intros j z Hj. rewrite (HP (S j) z Hj). lia.
    + intros Px. by apply (HP 0%nat) in Px.
Qed.

Lemma updateActiveButton_exactly b pf j btn' :
  (b < length (filterButtons pf))%nat →
  filterButtons (updateActiveButton b pf) !! j = Some btn' →
  (has_class "filter__btn--active" btn' = true ↔ j = b).
Proof.
  intros Hb. unfold updateActiveButton; cbn [filterButtons].
  destruct (decide (j = b)) as [->|Hne].
  - rewrite list_lookup_alter_eq, list_lookup_fmap.
    destruct (filterButtons pf !! b); [|done]. intros [= <-].
    by rewrite has_class_add_same.
  - rewrite list_lookup_alter_ne by done. rewrite list_lookup_fmap.
    destruct (filterButtons pf !! j); [|done]. intros [= <-].
    rewrite has_class_remove_same. split; [done | by intros ->].
Qed.

(** C8. After any sequence of clicks on filter buttons that ends with a
    click on button [b], the buttons that carry [filter__btn--active] are
    exactly one, the button [b]. *)
Theorem handleFilter_exactly_one_active
  (pf : t) (clicks : list nat) (b : nat) :
  (b < length (filterButtons pf))%nat →
  let pf' := foldl (λ pf c, handleFilter c pf) pf (clicks ++ [b]) in
  (∀ j btn', filterButtons pf' !! j = Some btn' →
             (has_class "filter__btn--active" btn' = true ↔ j = b))
  ∧ active_count pf' = 1%nat.
Proof.
  intros Hb pf'. subst pf'. rewrite foldl_app. cbn [foldl].
  set (pf1 := foldl _ pf clicks).
  assert (Hb1 : (b < length (filterButtons pf1))%nat)
    by (unfold pf1; by rewrite handleFilter_fold_length).
  assert (Hexact : ∀ j btn', filterButtons (handleFilter b pf1) !! j = Some btn' →
             (has_class "filter__btn--active" btn' = true ↔ j = b)).
  { intros j btn'. unfold handleFilter.
    destruct (lookup_lt_is_Some_2 _ _ Hb1) as [btn ->].
    rewrite filterProjects_buttons. by apply updateActiveButton_exactly. }
  split; [exact Hexact|].
  unfold active_count. apply (filter_singleton_length _ _ b); [|exact Hexact].
  by rewrite handleFilter_length.
Qed.

Lemma handleFilter_exactly_one_active_witness :
  let pf' := foldl (λ pf c, handleFilter c pf) gallery ([0; 1; 0] ++ [1])%nat in
  (∀ j btn', filterButtons pf' !! j = Some btn' →
             (has_class "filter__btn--active" btn' = true ↔ j = 1%nat))
  ∧ active_count pf' = 1%nat.
Proof.
  apply (handleFilter_exactly_one_active gallery [0; 1; 0]%nat 1).
  simpl. lia.
Defined.

End ProjectFilterFacts.

(** ** Fade-in animations *)

Section ScrollAnimationsFacts.
Import Dom ScrollAnimations.

(** No class-list call of the script takes [animated] away. *)
Lemma mutate_keeps_animated m e :
  has_class "animated" e = true → has_class "animated" (mutate m e) = true.
Proof.
  intros H. destruct m; simpl; unfold fadeIn;
    rewrite ?has_class_add_same, ?has_class_add_other,
            ?has_class_remove_other by done; done.
Qed.

Lemma alter_keeps_animated f (els : list element) k i :
  (∀ e, has_class "animated" e = true → has_class "animated" (f e) = true) →
  animated els i = true → animated (alter f k els) i = true.
Proof.
  intros Hf. unfold animated.
  destruct (decide (i = k)) as [->|Hne].
  - rewrite list_lookup_alter_eq. destruct (els !! k); simpl; [apply Hf | done].
  - by rewrite list_lookup_alter_ne.
Qed.

Lemma fadeCallback_keeps_animated entries els i :
  animated els i = true → animated (fadeCallback entries els) i = true.
Proof.
  unfold fadeCallback. revert els.
  induction entries as [|en entries IH]; intros els H; simpl; [done|].
  apply IH. destruct (isIntersecting en); [|done].
  apply alter_keeps_animated; [|done].
  intros e. apply (mutate_keeps_animated FadeIn).
Qed.

(** An intersecting entry tags its target. *)
Lemma fadeCallback_tags entries els i :
  (i < length els)%nat → Entry i true ∈ entries →
  animated (fadeCallback entries els) i = true.
Proof.
  unfold fadeCallback. revert els.
  induction entries as [|en entries IH]; intros els Hi Hin;
    [by apply elem_of_nil in Hin|].
  apply elem_of_cons in Hin as [<-|Hin]; simpl.
  - apply (fadeCallback_keeps_animated entries). unfold animated.
    rewrite list_lookup_alter_eq.
    destruct (lookup_lt_is_Some_2 _ _ Hi) as [e ->]. simpl.
    unfold fadeIn. apply has_class_add_same.
  - apply IH; [|done]. destruct (isIntersecting en); [|done].
    by rewrite length_alter.
Qed.

(** C9. An observed element that is tagged [animated] stays tagged
    through every later sequence of events: batches of intersection
    entries, whether intersecting or not, and every other class-list call
    of the script. *)
Theorem animated_is_one_shot
  (els : list element) (i : nat) (evs : list event) :
  animated els i = true → animated (run evs els) i = true.
Proof.
  unfold run. revert els.
  induction evs as [|ev evs IH]; intros els H; simpl; [done|].
  apply IH. destruct ev as [entries | k m]; simpl.
  - by apply fadeCallback_keeps_animated.
  - apply alter_keeps_animated; [apply mutate_keeps_animated | done].
Qed.

Lemma animated_is_one_shot_witness :
  animated
    (run [Intersections [Entry 0 false]; Other 0 CardHide;
          Other 0 CardShow; Intersections [Entry 0 false; Entry 0 true]]
         (fadeCallback [Entry 0 true]
            (createFadeInObserver [Element ["project__card"] [] []])))
    0 = true.
Proof.
  apply animated_is_one_shot. reflexivity.
Defined.

End ScrollAnimationsFacts.

(** ** Debounce *)

Section DebounceFacts.
Import Debounce.
Context {A : Type}.
Implicit Types (s : state A) (tm : timer A) (a : A).

(** The delay is never negative, and it is [wait] itself for a [wait]
    from 0 to [2^31 - 1]; at [2^31] it has wrapped around to zero. *)
Example delay_of_wraps :
  delay_of 16 = 16 ∧ delay_of (2 ^ 31) = 0 ∧ delay_of (-5) = 0.
Proof. repeat split. Qed.

Lemma delay_of_nonneg w : 0 ≤ delay_of w.
Proof. unfold delay_of. lia. Qed.

Lemma delay_of_small w : 0 ≤ w < 2 ^ 31 → delay_of w = w.
Proof.
  intros H. unfold delay_of, to_int32. rewrite Z.mod_small by lia. lia.
Qed.

(** A call of the wrapper leaves exactly its own timer pending, whether
    the wrapper was quiet or had a timer waiting. *)
Lemma executedFunction_quiet w a s :
  pending s = [] →
  executedFunction w a s
  = State (now s) (S (nextId s))
          [Timer (nextId s) (now s + delay_of w) a] (Some (nextId s)) (calls s).
Proof.
  intros H. unfold executedFunction, setTimeout, clearTimeout. simpl.
  rewrite H. reflexivity.
Qed.

Lemma executedFunction_rearm w a s tm :
  pending s = [tm] → timeout s = Some (timer_id tm) →
  executedFunction w a s
  = State (now s) (S (nextId s))
          [Timer (nextId s) (now s + delay_of w) a] (Some (nextId s)) (calls s).
Proof.
  intros H Ht. unfold executedFunction, setTimeout, clearTimeout. simpl.
  rewrite H, Ht. rewrite filter_cons_False by (intros Hne; by apply Hne).
  reflexivity.
Qed.

Lemma advance_quiet T s :
  pending s = [] →
  advance T s = State (Z.max (now s) T) (nextId s) [] (timeout s) (calls s).
Proof.
  intros H. unfold advance. rewrite H. simpl. by rewrite H.
Qed.

Lemma advance_waiting T s tm :
  pending s = [tm] → T < due tm →
  advance T s = State (Z.max (now s) T) (nextId s) [tm] (timeout s) (calls s).
Proof.
  intros H Hlt. unfold advance. rewrite H. simpl. rewrite H. simpl.
  apply Z.leb_gt in Hlt. rewrite Hlt. by rewrite H.
Qed.

Lemma advance_firing T s tm :
  pending s = [tm] → due tm ≤ T →
  advance T s
  = State (Z.max (Z.max (now s) (due tm)) T) (nextId s) [] (timeout s)
          (calls s ++ [(Z.max (now s) (due tm), args tm)]).
Proof.
  intros H Hle. unfold advance. rewrite H. simpl. rewrite H. simpl.
  apply Z.leb_le in Hle. rewrite Hle.
  unfold fire, later, clearTimeout. simpl. rewrite H.
  rewrite filter_cons_False by (intros Hne; by apply Hne).
  reflexivity.
Qed.

Lemma call_at_quiet w s t a :
  pending s = [] → now s ≤ t →
  armed (delay_of w) (calls s) t a t (call_at w s (t, a)).
Proof.
  intros H Hle. unfold call_at. cbn [fst snd].
  rewrite executedFunction_quiet by done. cbn [at_time now nextId calls].
  rewrite (Z.max_r (now s) t) by done. by eexists _, _.
Qed.

(** A call while a timer waits, due or not, cancels it. *)
Lemma call_at_armed w cs t a clock s t' a' :
  armed (delay_of w) cs t a clock s → clock ≤ t' →
  armed (delay_of w) cs t' a' t' (call_at w s (t', a')).
Proof.
  intros (id & n & ->) Hle. unfold call_at. cbn [fst snd].
  rewrite (executedFunction_rearm _ _ _ (Timer id (t + delay_of w) a)) by done.
  cbn [at_time now nextId calls].
  rewrite (Z.max_r clock t') by done. by eexists _, _.
Qed.

(** A run of the event loop before the timer is due fires nothing. *)
Lemma advance_armed W cs t a clock s t' :
  armed W cs t a clock s → clock ≤ t' → t' < t + W →
  armed W cs t a t' (advance t' s).
Proof.
  intros (id & n & ->) Hle Hlt.
  rewrite (advance_waiting _ _ (Timer id (t + W) a)) by done.
  cbn [now nextId timeout calls].
  rewrite (Z.max_r clock t') by done. by eexists _, _.
Qed.






(** The wrapper against the trailing-edge rule, for calls in time order
    with the event loop idle in between: [func] is called as [trailing]
    says. *)
Lemma idle_loop_trailing_armed w T (sched : list (Z * A)) :
  ∀ s cs t a,
    armed (delay_of w) cs t a t s → in_order t sched →
    calls (advance T (run_ops w (idle_loop sched) s))
    = cs ++ trailing (delay_of w) T ((t, a) :: sched).
Proof.
  pose proof (delay_of_nonneg w) as HW.
  induction sched as [|[t1 a1] sched IH]; intros s cs t a Hs Ho.
  - destruct Hs as (id & n & ->). unfold run_ops. cbn [idle_loop foldl trailing].
    destruct (t + delay_of w <=? T) eqn:E.
    + apply Z.leb_le in E.
      rewrite (advance_firing _ _ (Timer id (t + delay_of w) a)) by done.
      cbn [calls now due args].
      by rewrite (Z.max_r t (t + delay_of w)) by lia.
    + apply Z.leb_gt in E.
      rewrite (advance_waiting _ _ (Timer id (t + delay_of w) a)) by done.
      cbn [calls]. by rewrite app_nil_r.
  - destruct Ho as [Hle Ho].
    change (run_ops w (idle_loop ((t1, a1) :: sched)) s)
      with (run_ops w (idle_loop sched) (call_at w (advance t1 s) (t1, a1))).
    change (trailing (delay_of w) T ((t, a) :: (t1, a1) :: sched))
      with (if t + delay_of w <=? t1
            then (t + delay_of w, a)
                 :: trailing (delay_of w) T ((t1, a1) :: sched)
            else trailing (delay_of w) T ((t1, a1) :: sched)).
    destruct (t + delay_of w <=? t1) eqn:E.
    + apply Z.leb_le in E. destruct Hs as (id & n & ->).
      rewrite (advance_firing t1 _ (Timer id (t + delay_of w) a)) by done.
      cbn [calls now due args nextId timeout].
      rewrite (Z.max_r t (t + delay_of w)) by lia.
      rewrite (Z.max_r (t + delay_of w) t1) by lia.
      rewrite (IH _ (cs ++ [(t + delay_of w, a)]) t1 a1); [|
        apply (call_at_quiet w (State t1 n [] (Some id)
                                  (cs ++ [(t + delay_of w, a)])) t1 a1);
          [done | cbn [now]; lia] | done].
      by rewrite <- app_assoc.
    + apply Z.leb_gt in E.
      apply (IH _ cs t1 a1); [|done].
      apply (call_at_armed w cs t a t1); [|lia].
      by apply (advance_armed _ _ _ _ t).
Qed.

(** X24. The wrapper follows the trailing-edge rule for any calls in
    time order that come in tasks of their own, the event loop running
    its due timers before each of them: by time [T], [func] has been
    called for exactly those calls that were followed by no other call
    within the delay, each time the delay after the call and with its
    arguments, in order.  The delay [w] is one that [setTimeout] takes as
    it is, from 0 to [2^31 - 1]. *)
Lemma debounce_trailing_edge w t0 id0 T (sched : list (Z * A)) :
  0 ≤ w < 2 ^ 31 →
  in_order t0 sched →
  calls (advance T (run_ops w (idle_loop sched) (fresh t0 id0)))
  = trailing w T sched.
Proof.
  intros Hw. rewrite <- (delay_of_small w Hw) at 2.
  destruct sched as [|[t a] sched]; [done|]. intros [Hle Ho].
  change (run_ops w (idle_loop ((t, a) :: sched)) (fresh t0 id0))
    with (run_ops w (idle_loop sched)
            (call_at w (advance t (fresh t0 id0)) (t, a))).
  rewrite (advance_quiet t (fresh t0 id0) eq_refl).
  cbn [fresh now nextId timeout calls]. rewrite (Z.max_r t0 t) by done.
  by rewrite (idle_loop_trailing_armed w T sched _ [] t a
                (call_at_quiet w (State t id0 [] None []) t a eq_refl
                   (Z.le_refl t)) Ho).
Qed.


End DebounceFacts.

(** Two calls in one task with a delay of zero: no timer fires between
    them, the second call cancels the timer of the first, and [func] is
    called once.  With a run of the event loop between them, it is called
    for both. *)
Example two_calls_in_one_task :
  Debounce.calls
    (Debounce.advance 0
       (Debounce.run_ops 0 [Debounce.Call 0 "a"; Debounce.Call 0 "b"]
          (Debounce.fresh 0 0%nat)))
  = [(0, "b")]
  ∧ Debounce.calls
      (Debounce.advance 0
         (Debounce.run_ops 0
            [Debounce.Call 0 "a"; Debounce.Tick 0; Debounce.Call 0 "b"]
            (Debounce.fresh 0 0%nat)))
    = [(0, "a"); (0, "b")].
Proof. split; reflexivity. Qed.


(** ** Strings: [trim] and the e-mail pattern *)

Section JsStringFacts.
Import JsString.
Implicit Types (s : jsstring) (r : regex) (c : code_unit).

Lemma trimStart_nil_iff s :
  trimStart s = [] ↔ Forall (λ c, isWhiteSpace c = true) s.
Proof.
  induction s as [|c s IH]; simpl; [done|].
  destruct (isWhiteSpace c) eqn:E.
  - rewrite IH. split; [by constructor | by inversion 1].
  - split; [done|]. inversion 1; congruence.
Qed.

(** What [trimStart] leaves does not begin with white space. *)
Lemma trimStart_head s c rest :
  trimStart s = c :: rest → isWhiteSpace c = false.
Proof.
  induction s as [|c' s IH]; simpl; [done|].
  destruct (isWhiteSpace c') eqn:E; [done|]. by intros [= <- _].
Qed.

Lemma trimStart_suffix s : ∃ pre, s = pre ++ trimStart s
                                  ∧ Forall (λ c, isWhiteSpace c = true) pre.
Proof.
  induction s as [|c s (pre & Hs & Hpre)]; simpl.
  - by exists [].
  - destruct (isWhiteSpace c) eqn:E.
    + exists (c :: pre). split; [by rewrite Hs at 1 | by constructor].
    + by exists [].
Qed.

(** A value is empty after [trim] exactly when it is white space only. *)
Lemma trim_empty_iff s :
  truthy (trim s) = false ↔ Forall (λ c, isWhiteSpace c = true) s.
Proof.
  assert (Ht : ∀ x : jsstring, truthy x = false ↔ x = [])
    by (intros [|??]; simpl; split; congruence).
  rewrite Ht. unfold trim, trimEnd.
  rewrite <- trimStart_nil_iff.
  split.
  - intros H. apply (f_equal (@rev _)) in H. rewrite rev_involutive in H. simpl in H.
    apply trimStart_nil_iff in H. apply List.Forall_rev in H.
    rewrite rev_involutive in H.
    destruct (trimStart s) as [|c rest] eqn:E; [done|].
    apply trimStart_head in E. inversion H; congruence.
  - intros ->. reflexivity.
Qed.

Lemma lang_empty_inv s : ¬ lang Empty s.
Proof. inversion 1. Qed.

Lemma lang_eps_inv s : lang Eps s → s = [].
Proof. by inversion 1. Qed.

Lemma lang_class_inv p s : lang (Class p) s → ∃ c, s = [c] ∧ p c = true.
Proof. inversion 1; subst; eauto. Qed.

Lemma lang_cat_inv r1 r2 s :
  lang (Cat r1 r2) s → ∃ s1 s2, s = s1 ++ s2 ∧ lang r1 s1 ∧ lang r2 s2.
Proof. inversion 1; subst; eauto. Qed.

Lemma lang_alt_inv r1 r2 s : lang (Alt r1 r2) s → lang r1 s ∨ lang r2 s.
Proof. inversion 1; subst; eauto. Qed.

Lemma nullable_lang r : nullable r = true ↔ lang r [].
Proof.
  induction r as [| |p|r1 IH1 r2 IH2|r1 IH1 r2 IH2|r IH]; simpl.
  - split; [done | by intros ?%lang_empty_inv].
  - split; [constructor | done].
  - split; [done | by intros (? & ? & _)%lang_class_inv].
  - rewrite andb_true_iff, IH1, IH2. split.
    + intros [H1 H2]. apply (lang_cat _ _ [] [] H1 H2).
    + intros (s1 & s2 & Heq & H1 & H2)%lang_cat_inv.
      symmetry in Heq. apply app_eq_nil in Heq as [-> ->]. done.
  - rewrite orb_true_iff, IH1, IH2. split.
    + intros [H|H]; [by apply lang_alt_l | by apply lang_alt_r].
    + by intros ?%lang_alt_inv.
  - split; [constructor | done].
Qed.

(** A non-empty word of [r*] begins with a non-empty word of [r]. *)
Lemma lang_star_cons_inv r c s :
  lang (Star r) (c :: s) →
  ∃ s1 s2, s = s1 ++ s2 ∧ lang r (c :: s1) ∧ lang (Star r) s2.
Proof.
  intros H. remember (Star r) as r' eqn:Hr. remember (c :: s) as x eqn:Hx.
  revert s Hx.
  induction H as [| | | | | |r0 s1 s2 H1 _ H2 IH2]; intros s' Hx;
    try discriminate.
  injection Hr as ->. destruct s1 as [|c1 s1]; simpl in Hx.
  - by apply IH2.
  - injection Hx as -> <-. by exists s1, s2.
Qed.

Lemma deriv_lang r : ∀ c s, lang (deriv c r) s ↔ lang r (c :: s).
Proof.
  induction r as [| |p|r1 IH1 r2 IH2|r1 IH1 r2 IH2|r IH]; intros c s; simpl.
  - split; by intros ?%lang_empty_inv.
  - split; [by intros ?%lang_empty_inv | by intros ?%lang_eps_inv].
  - destruct (p c) eqn:E; split.
    + intros ->%lang_eps_inv. by constructor.
    + intros (c' & [= -> ->] & _)%lang_class_inv. constructor.
    + by intros ?%lang_empty_inv.
    + intros (c' & [= -> ->] & ?)%lang_class_inv. congruence.
  - assert (Hcat : lang (Cat (deriv c r1) r2) s
                   → lang (Cat r1 r2) (c :: s)).
    { intros (s1 & s2 & -> & H1 & H2)%lang_cat_inv.
      apply IH1 in H1. apply (lang_cat _ _ (c :: s1) s2 H1 H2). }
    assert (Hinv : lang (Cat r1 r2) (c :: s)
                   → lang (Cat (deriv c r1) r2) s
                     ∨ (lang r1 [] ∧ lang r2 (c :: s))).
    { intros (s1 & s2 & Heq & H1 & H2)%lang_cat_inv.
      destruct s1 as [|c1 s1]; simpl in Heq.
      - right. by subst.
      - injection Heq as <- ->. left. apply lang_cat; [by apply IH1 | done]. }
    destruct (nullable r1) eqn:E.
    + split.
      * intros [H|H]%lang_alt_inv; [by apply Hcat|].
        apply nullable_lang in E. apply (lang_cat _ _ [] (c :: s) E).
        by apply IH2.
      * intros H. destruct (Hinv H) as [H'|[_ H']];
          [by apply lang_alt_l | apply lang_alt_r; by apply IH2].
    + split; [exact Hcat|].
      intros H. destruct (Hinv H) as [H'|[H' _]]; [done|].
      apply nullable_lang in H'. congruence.
  - split.
    + intros [H|H]%lang_alt_inv; [apply lang_alt_l; by apply IH1
                                 | apply lang_alt_r; by apply IH2].
    + intros [H|H]%lang_alt_inv; [apply lang_alt_l; by apply IH1
                                 | apply lang_alt_r; by apply IH2].
  - split.
    + intros (s1 & s2 & -> & H1 & H2)%lang_cat_inv.
      apply IH in H1. apply (lang_star_cons _ (c :: s1) s2 H1 H2).
    + intros H. apply lang_star_cons_inv in H as (s1 & s2 & -> & H1 & H2).
      apply lang_cat; [by apply IH | done].
Qed.

(** [test] decides the language. *)
Lemma test_lang r s : test r s = true ↔ lang r s.
Proof.
  revert r. induction s as [|c s IH]; intros r; simpl.
  - apply nullable_lang.
  - rewrite IH. apply deriv_lang.
Qed.

Lemma lang_star_class p s :
  lang (Star (Class p)) s ↔ Forall (λ c, p c = true) s.
Proof.
  split.
  - intros H. remember (Star (Class p)) as r' eqn:Hr.
    induction H as [| | | | | |r0 s1 s2 H1 _ H2 IH2]; try discriminate.
    + constructor.
    + injection Hr as ->. apply lang_class_inv in H1 as (c & -> & Hc).
      constructor; [done | by apply IH2].
  - induction 1 as [|c s Hc _ IH]; [constructor|].
    apply (lang_star_cons _ [c] s); [by constructor | done].
Qed.

Lemma lang_plus_class p s :
  lang (Plus (Class p)) s ↔ s ≠ [] ∧ Forall (λ c, p c = true) s.
Proof.
  unfold Plus. split.
  - intros (s1 & s2 & -> & (c & -> & Hc)%lang_class_inv & H2)%lang_cat_inv.
    split; [done|]. constructor; [done | by apply lang_star_class].
  - intros [Hne H]. destruct H as [|c s Hc H]; [done|].
    apply (lang_cat _ _ [c] s); [by constructor | by apply lang_star_class].
Qed.

(** The pattern accepts exactly the values of the shape
    [local@domain.tld]: three non-empty parts without white space and
    without [@], the first two separated by [@], the last two by a dot. *)
Lemma emailRegex_shape s :
  test emailRegex s = true
  ↔ ∃ l d t, s = l ++ [0x40%N] ++ d ++ [0x2E%N] ++ t
             ∧ l ≠ [] ∧ d ≠ [] ∧ t ≠ []
             ∧ Forall (λ c, notSpaceAt c = true) l
             ∧ Forall (λ c, notSpaceAt c = true) d
             ∧ Forall (λ c, notSpaceAt c = true) t.
Proof.
  rewrite test_lang. unfold emailRegex. split.
  - intros (l & s1 & -> & [Hl Hl']%lang_plus_class & H)%lang_cat_inv.
    apply lang_cat_inv in H
      as (at_ & s2 & -> & (c & -> & Hc)%lang_class_inv & H).
    apply N.eqb_eq in Hc as <-.
    apply lang_cat_inv in H
      as (d & s3 & -> & [Hd Hd']%lang_plus_class & H).
    apply lang_cat_inv in H
      as (dot & t & -> & (c & -> & Hc)%lang_class_inv & [Ht Ht']%lang_plus_class).
    apply N.eqb_eq in Hc as <-.
    by exists l, d, t.
  - intros (l & d & t & -> & Hl & Hd & Ht & Hl' & Hd' & Ht').
    apply lang_cat; [by apply lang_plus_class|].
    apply lang_cat; [by constructor|].
    apply lang_cat; [by apply lang_plus_class|].
    apply lang_cat; [by constructor | by apply lang_plus_class].
Qed.

Example trim_strips_both_ends :
  trim (of_string "  Hi there ") = of_string "Hi there".
Proof. reflexivity. Qed.

Example emailRegex_accepts :
  test emailRegex (of_string "jane@x.com") = true
  ∧ test emailRegex (of_string "j.doe@mail.example.org") = true.
Proof. split; reflexivity. Qed.

Example emailRegex_rejects :
  test emailRegex (of_string "jane@x") = false
  ∧ test emailRegex (of_string "jane doe@x.com") = false
  ∧ test emailRegex (of_string "a@b@c.d") = false
  ∧ test emailRegex (of_string "@x.com") = false
  ∧ test emailRegex (of_string "jane@x.") = false.
Proof. repeat split; reflexivity. Qed.

End JsStringFacts.

(** ** Contact form *)

(** *** The tree of the form *)

Section FormTreeFacts.
Import Dom JsString ContactForm.
Implicit Types (n : node) (ch : list node).

(** Induction on trees, the children of an element at hand. *)
Lemma node_ind' (P : node → Prop) :
  (∀ e, P (ErrorNode e)) →
  (∀ k ch, Forall P ch → P (Elem k ch)) →
  ∀ n, P n.
Proof.
  intros He Hb. fix IH 1. intros [e|k ch]; [apply He|].
  apply Hb. induction ch as [|x ch IHch]; constructor; [apply IH | exact IHch].
Qed.

Lemma keys_in_cons n ch : keys_in (n :: ch) = keys n ++ keys_in ch.
Proof. reflexivity. Qed.

Lemma keys_in_app ch ch' : keys_in (ch ++ ch') = keys_in ch ++ keys_in ch'.
Proof. unfold keys_in. by rewrite map_app, concat_app. Qed.

Lemma errors_in_cons n ch : errors_in (n :: ch) = errors_of n ++ errors_in ch.
Proof. reflexivity. Qed.

Lemma errors_in_app ch ch' :
  errors_in (ch ++ ch') = errors_in ch ++ errors_in ch'.
Proof. unfold errors_in. by rewrite map_app, concat_app. Qed.

Lemma find_in_cons p n ch :
  find_in p (n :: ch)
  = match find_box p n with Some c => Some c | None => find_in p ch end.
Proof. reflexivity. Qed.

Lemma remove_first_in_cons n ch :
  remove_first_in (n :: ch)
  = match remove_first n with
    | Some xs => Some (xs ++ ch)
    | None => cons n <$> remove_first_in ch
    end.
Proof. reflexivity. Qed.

Lemma find_box_Elem p k ch :
  find_box p (Elem k ch) = if Nat.eqb k p then Some ch else find_in p ch.
Proof. reflexivity. Qed.

Lemma remove_first_Elem k ch :
  remove_first (Elem k ch) = (λ ch', [Elem k ch']) <$> remove_first_in ch.
Proof. reflexivity. Qed.

Lemma inside_Elem p q k ch :
  inside p q (Elem k ch)
  = (Nat.eqb k q && bool_decide (p ∈ keys_in ch)) || existsb (inside p q) ch.
Proof. reflexivity. Qed.

(** An element is found exactly when its key is in the tree. *)
Lemma find_in_None_of p ch :
  Forall (λ n, find_box p n = None ↔ p ∉ keys n) ch →
  find_in p ch = None ↔ p ∉ keys_in ch.
Proof.
  induction 1 as [|x ch Hx _ IH];
    [split; [intros _; apply not_elem_of_nil | done]|].
  rewrite find_in_cons, keys_in_cons, elem_of_app.
  destruct (find_box p x) as [c|] eqn:E.
  - split; [done|]. intros Hn. exfalso. apply Hn. left.
    destruct (decide (p ∈ keys x)) as [|Hnot]; [done|].
    apply Hx in Hnot. congruence.
  - rewrite IH. pose proof (proj1 Hx eq_refl). tauto.
Qed.

Lemma find_box_None p n : find_box p n = None ↔ p ∉ keys n.
Proof.
  induction n as [e|k ch IH] using node_ind'.
  - split; [intros _; apply not_elem_of_nil | done].
  - rewrite find_box_Elem. cbn [keys]. fold (keys_in ch). rewrite elem_of_cons.
    destruct (Nat.eqb_spec k p) as [->|Hne].
    + split; [done|]. intros Hn. exfalso. apply Hn. by left.
    + rewrite (find_in_None_of p ch IH). split.
      * intros Hn [?|?]; [congruence | done].
      * intros Hn ?. apply Hn. by right.
Qed.

Lemma find_in_None p ch : find_in p ch = None ↔ p ∉ keys_in ch.
Proof.
  apply find_in_None_of, Forall_forall. intros n _. apply find_box_None.
Qed.


Lemma existsb_inside_app p q ch ch' :
  existsb (inside p q) (ch ++ ch')
  = existsb (inside p q) ch || existsb (inside p q) ch'.
Proof. apply existsb_app. Qed.

Lemma remove_first_in_ok_of ch :
  Forall remove_first_ok ch → remove_first_in_ok ch.
Proof.
  unfold remove_first_in_ok.
  induction 1 as [|x ch Hx _ IH]; [done|]. unfold remove_first_ok in Hx.
  rewrite remove_first_in_cons, errors_in_cons.
  destruct (remove_first x) as [xs|].
  - destruct Hx as (Hne & Ht & Hk & Hi).
    split; [by destruct (errors_of x)|]. split; [|split].
    + rewrite errors_in_app, Ht. by destruct (errors_of x).
    + by rewrite keys_in_app, Hk.
    + intros p q. rewrite existsb_inside_app. cbn [existsb]. by rewrite Hi.
  - rewrite Hx. cbn [app].
    destruct (remove_first_in ch) as [l|]; cbn [fmap option_fmap option_map].
    + destruct IH as (Hne & Ht & Hk & Hi).
      split; [done|]. split; [|split].
      * by rewrite errors_in_cons, Hx.
      * by rewrite !keys_in_cons, Hk.
      * intros p q. cbn [existsb]. by rewrite Hi.
    + done.
Qed.

Lemma remove_first_spec n : remove_first_ok n.
Proof.
  induction n as [e|k ch IH] using node_ind'; unfold remove_first_ok.
  - cbn. repeat split; done.
  - pose proof (remove_first_in_ok_of ch IH) as H.
    unfold remove_first_in_ok in H. rewrite remove_first_Elem.
    change (errors_of (Elem k ch)) with (errors_in ch).
    destruct (remove_first_in ch) as [l|]; cbn [fmap option_fmap option_map];
      [|done].
    destruct H as (Hne & Ht & Hk & Hi).
    split; [done|]. split; [|split].
    + rewrite errors_in_cons. change (errors_of (Elem k l)) with (errors_in l).
      by rewrite app_nil_r.
    + rewrite keys_in_cons. cbn [keys]. fold (keys_in l).
      by rewrite app_nil_r, Hk.
    + intros p q. cbn [existsb]. rewrite orb_false_r, !inside_Elem.
      by rewrite Hk, Hi.
Qed.

Lemma remove_first_in_spec ch : remove_first_in_ok ch.
Proof.
  apply remove_first_in_ok_of, Forall_forall. intros n _.
  apply remove_first_spec.
Qed.

(** [clearFieldError] takes the first inline error below the parent
    away. *)
Lemma errors_in_clear_first ch : errors_in (clear_first ch) = tail (errors_in ch).
Proof.
  pose proof (remove_first_in_spec ch) as H.
  unfold remove_first_in_ok in H. unfold clear_first.
  destruct (remove_first_in ch) as [l|]; cbn [default from_option id].
  - by destruct H as (_ & -> & _).
  - by rewrite H.
Qed.

Lemma tame_clear_first : tame clear_first.
Proof.
  intros ch. pose proof (remove_first_in_spec ch) as H.
  unfold remove_first_in_ok in H. unfold clear_first.
  destruct (remove_first_in ch) as [l|]; cbn [default from_option id];
    [|done].
  by destruct H as (_ & _ & -> & Hi).
Qed.

Lemma tame_appendChild e : tame (appendChild e).
Proof.
  intros ch. unfold appendChild. split.
  - rewrite keys_in_app. apply app_nil_r.
  - intros p q. rewrite existsb_inside_app. cbn. apply orb_false_r.
Qed.

(** A tame update keeps the keys and what lies inside what. *)
Lemma update_box_keys q g n : tame g → keys (update_box q g n) = keys n.
Proof.
  intros Hg. induction n as [e|k ch IH] using node_ind'; [done|].
  cbn [update_box]. destruct (Nat.eqb k q); cbn [keys].
  - f_equal. apply Hg.
  - f_equal. induction IH as [|x ch Hx _ IHch]; [done|].
    cbn [map concat]. by rewrite Hx, IHch.
Qed.

Lemma update_box_inside q g n p q' :
  tame g → inside p q' (update_box q g n) = inside p q' n.
Proof.
  intros Hg. induction n as [e|k ch IH] using node_ind'; [done|].
  cbn [update_box]. destruct (Nat.eqb k q); rewrite !inside_Elem.
  - destruct (Hg ch) as [-> Hi]. by rewrite Hi.
  - assert (Hk : keys_in (map (update_box q g) ch) = keys_in ch).
    { clear IH. induction ch as [|x ch IHch]; [done|].
      cbn [map]. by rewrite !keys_in_cons, update_box_keys, IHch. }
    rewrite Hk. clear Hk. f_equal.
    induction IH as [|x ch Hx _ IHch]; [done|].
    cbn [map existsb]. by rewrite Hx, IHch.
Qed.

(** The children of the element that is updated. *)
Lemma find_box_update_same p g n :
  find_box p (update_box p g n) = g <$> find_box p n.
Proof.
  induction n as [e|k ch IH] using node_ind'; [done|].
  cbn [update_box]. rewrite find_box_Elem.
  destruct (Nat.eqb k p) eqn:E; rewrite find_box_Elem, E; [done|].
  induction IH as [|x ch Hx _ IHch]; [done|].
  cbn [map]. rewrite !find_in_cons, Hx.
  by destruct (find_box p x).
Qed.

(** The children of another element, when that element is not inside the
    one that is updated: the update is passed on to them. *)
Lemma find_box_update_other p q g n :
  p ≠ q → tame g → inside p q n = false →
  find_box p (update_box q g n) = map (update_box q g) <$> find_box p n.
Proof.
  intros Hne Hg. induction n as [e|k ch IH] using node_ind'; [done|].
  rewrite inside_Elem. intros [H1 H2]%orb_false_iff.
  cbn [update_box]. destruct (Nat.eqb_spec k q) as [->|Hkq].
  - cbn [andb] in H1. apply bool_decide_eq_false in H1.
    rewrite !find_box_Elem.
    destruct (Nat.eqb_spec q p) as [->|_]; [done|].
    rewrite (proj2 (find_in_None p ch)) by done.
    apply find_in_None. by rewrite (proj1 (Hg ch)).
  - rewrite !find_box_Elem. destruct (Nat.eqb k p); [done|].
    clear H1. induction IH as [|x ch Hx _ IHch]; [done|].
    cbn [existsb] in H2. apply orb_false_iff in H2 as [Hx2 Hch2].
    cbn [map]. rewrite !find_in_cons, (Hx Hx2).
    destruct (find_box p x); [done|]. by apply IHch.
Qed.

(** An update of an element that is not in a tree changes nothing. *)
Lemma update_box_absent q g n : q ∉ keys n → update_box q g n = n.
Proof.
  induction n as [e|k ch IH] using node_ind'; [done|].
  cbn [keys]. fold (keys_in ch). rewrite not_elem_of_cons. intros [Hk Hch].
  cbn [update_box]. destruct (Nat.eqb_spec k q) as [->|_]; [done|].
  f_equal. induction IH as [|x ch Hx _ IHch]; [done|].
  rewrite keys_in_cons, not_elem_of_app in Hch. destruct Hch as [Hx' Hch].
  cbn [map]. by rewrite (Hx Hx'), (IHch Hch).
Qed.

Lemma map_update_box_absent q g ch :
  q ∉ keys_in ch → map (update_box q g) ch = ch.
Proof.
  induction ch as [|x ch IH]; [done|].
  rewrite keys_in_cons, not_elem_of_app. intros [Hx Hch].
  cbn [map]. by rewrite update_box_absent, IH.
Qed.

(** What is not inside an element is not among its children. *)
Lemma find_box_not_inside p q n c :
  find_box p n = Some c → inside q p n = false → q ∉ keys_in c.
Proof.
  revert c. induction n as [e|k ch IH] using node_ind'; intros c; [done|].
  rewrite find_box_Elem, inside_Elem. intros Hc [H1 H2]%orb_false_iff.
  destruct (Nat.eqb k p).
  - injection Hc as <-. cbn [andb] in H1. by apply bool_decide_eq_false in H1.
  - clear H1. induction IH as [|x ch Hx _ IHch]; [done|].
    cbn [existsb] in H2. apply orb_false_iff in H2 as [Hx2 Hch2].
    rewrite find_in_cons in Hc. destruct (find_box p x) as [c'|] eqn:E.
    + injection Hc as <-. by apply Hx.
    + by apply IHch.
Qed.

End FormTreeFacts.

(** *** Validation *)

Section ContactFormFacts.
Import Dom JsString ContactForm.
Implicit Types (s : state) (f : field).

Lemma data_eq f g :
  data f = data g →
  required f = required g ∧ type f = type g ∧ value f = value g
  ∧ parentNode f = parentNode g.
Proof.
  unfold data, set_borderColor. intros [= _ -> -> -> _ ->]. done.
Qed.

Lemma data_acceptable f g : data f = data g → acceptable f = acceptable g.
Proof.
  intros (_ & Ht & Hv & _)%data_eq. unfold acceptable. by rewrite Ht, Hv.
Qed.


Lemma clearFieldError_rest i s : rest_of (clearFieldError i s) = rest_of s.
Proof. unfold clearFieldError. by destruct (fields s !! i). Qed.

Lemma clearFieldError_data i s :
  data <$> fields (clearFieldError i s) = data <$> fields s.
Proof.
  unfold clearFieldError. destruct (fields s !! i); [|done]. simpl.
  by apply fmap_alter_same.
Qed.

Lemma showFieldError_rest i m s : rest_of (showFieldError i m s) = rest_of s.
Proof.
  unfold showFieldError.
  destruct (fields (clearFieldError i s) !! i); simpl;
    apply clearFieldError_rest.
Qed.

Lemma showFieldError_data i m s :
  data <$> fields (showFieldError i m s) = data <$> fields s.
Proof.
  unfold showFieldError.
  destruct (fields (clearFieldError i s) !! i); simpl;
    [rewrite fmap_alter_same by done|]; apply clearFieldError_data.
Qed.

(** Two lists of controls with the same data hold, place by place,
    controls with the same data. *)
Lemma data_lookup (l l' : list field) j f :
  data <$> l' = data <$> l → l !! j = Some f →
  ∃ f', l' !! j = Some f' ∧ data f' = data f.
Proof.
  intros Heq Hj. apply (f_equal (λ x, x !! j)) in Heq.
  rewrite !list_lookup_fmap, Hj in Heq.
  destruct (l' !! j) as [f'|]; [|done]. exists f'. split; [done|].
  simpl in Heq. congruence.
Qed.

(** What clearing and showing an error do to the tree: the first inline
    error below the parent of the control goes, and the new one becomes
    the last child of the parent. *)
Lemma clearFieldError_dom i s f :
  fields s !! i = Some f →
  dom (clearFieldError i s) = update_box (parentNode f) clear_first (dom s).
Proof. intros Hi. unfold clearFieldError. by rewrite Hi. Qed.

Lemma showFieldError_dom i m s f :
  fields s !! i = Some f →
  dom (showFieldError i m s)
  = update_box (parentNode f) (appendChild (errorDiv_of m))
      (update_box (parentNode f) clear_first (dom s)).
Proof.
  intros Hi. unfold showFieldError.
  destruct (data_lookup _ _ i f (clearFieldError_data i s) Hi)
    as (f' & Hf' & Hd).
  rewrite Hf'. apply data_eq in Hd as (_ & _ & _ & Hp). rewrite Hp.
  cbn [dom with_fields with_dom]. by rewrite (clearFieldError_dom i s f).
Qed.

Lemma validateField_spec i s b f :
  fields s !! i = Some f →
  validateField i (s, b)
  = (if acceptable f then clearFieldError i s
     else showFieldError i (message_for f) s,
     b && acceptable f).
Proof.
  intros Hi. unfold validateField. rewrite Hi. unfold acceptable, message_for.
  destruct (truthy (trim (value f))); simpl; [|by rewrite andb_false_r].
  destruct (String.eqb (type f) "email"); simpl; [|by rewrite andb_true_r].
  destruct (isValidEmail (value f)); simpl;
    [by rewrite andb_true_r | by rewrite andb_false_r].
Qed.

(** What validation asks of a required control, in words: the value is
    not white space only, and a control of type [email] matches the
    pattern. *)
Lemma acceptable_iff f :
  acceptable f = true
  ↔ ¬ Forall (λ c, isWhiteSpace c = true) (value f)
    ∧ (type f = "email" → test emailRegex (value f) = true).
Proof.
  unfold acceptable, isValidEmail.
  rewrite andb_true_iff, orb_true_iff, negb_true_iff, <- trim_empty_iff.
  rewrite String.eqb_neq.
  destruct (truthy (trim (value f))); split.
  - intros [_ [Hne | He]]; split; try done.
  - intros [_ H]. split; [done|].
    destruct (decide (type f = "email")); [right; auto | by left].
  - by intros [? _].
  - intros [H _]. by destruct H.
Qed.

Lemma validateField_rest i acc :
  rest_of (validateField i acc).1 = rest_of acc.1.
Proof.
  destruct acc as [s b]. unfold validateField.
  destruct (fields s !! i) as [f|]; [|done].
  destruct (negb _); [apply showFieldError_rest|].
  destruct (_ && _); [apply showFieldError_rest | apply clearFieldError_rest].
Qed.

Lemma validateField_data i acc :
  data <$> fields (validateField i acc).1 = data <$> fields acc.1.
Proof.
  destruct acc as [s b]. unfold validateField.
  destruct (fields s !! i) as [f|]; [|done].
  destruct (negb _); [apply showFieldError_data|].
  destruct (_ && _); [apply showFieldError_data | apply clearFieldError_data].
Qed.

Lemma validateFrom_rest controls :
  ∀ i acc, rest_of (validateFrom i controls acc).1 = rest_of acc.1.
Proof.
  induction controls as [|f0 controls IH]; intros i acc; simpl; [done|].
  rewrite IH. destruct (required f0); [apply validateField_rest | done].
Qed.

Lemma validateFrom_data controls :
  ∀ i acc, data <$> fields (validateFrom i controls acc).1
           = data <$> fields acc.1.
Proof.
  induction controls as [|f0 controls IH]; intros i acc; simpl; [done|].
  rewrite IH. destruct (required f0); [apply validateField_data | done].
Qed.


Lemma segment_cons l0 i f0 rest :
  segment l0 i (f0 :: rest) → l0 !! i = Some f0 ∧ segment l0 (S i) rest.
Proof.
  intros H. split.
  - specialize (H 0%nat f0 eq_refl). by rewrite Nat.add_0_r in H.
  - intros k g Hk. specialize (H (S k) g Hk).
    by replace (S i + k)%nat with (i + S k)%nat by lia.
Qed.



Lemma segment_whole (l0 : list field) : segment l0 0 l0.
Proof. by intros k f0 H. Qed.






Lemma submitForm_dom s : dom (submitForm s) = dom s.
Proof. unfold submitForm; simpl. by destruct (submitBtn s). Qed.

Lemma handleSubmit_dom s : dom (handleSubmit s) = dom (validateForm s).1.
Proof.
  unfold handleSubmit. destruct (validateForm s) as [s1 [|]]; simpl; [|done].
  apply submitForm_dom.
Qed.

Lemma validateForm_rest s : rest_of (validateForm s).1 = rest_of s.
Proof. apply validateFrom_rest. Qed.








(** A valid submission starts [submitForm]: the button is in its loading
    state and [resolve] is due in 2000 ms; the rest is as it was. *)
Lemma handleSubmit_valid s btn :
  submitBtn s = Some btn → (validateForm s).2 = true →
  rest_of (handleSubmit s)
  = (Some (Button loadingText true), notifications s, console s, now s,
     timers s ++ [(now s + 2000, Resolve (innerHTML btn))],
     S (submitCalls s), resetShadowed s).
Proof.
  intros Hbtn Hvalid. pose proof (validateForm_rest s) as Hr.
  unfold handleSubmit. destruct (validateForm s) as [s1 valid].
  simpl in Hvalid, Hr. subst valid.
  unfold rest_of in Hr. injection Hr as Hb Hn Hc Hnow Ht Hsc Hsh.
  unfold submitForm. cbn [submitBtn with_submitCalls]. rewrite Hb, Hbtn.
  unfold rest_of, setTimeout; simpl. by rewrite Hn, Hc, Hnow, Ht, Hsc, Hsh.
Qed.

(** C4. A valid submission puts the submit button into the loading state
    and leaves the continuation of [submitForm] waiting with the label
    the button had; whenever that continuation runs, and whether the
    awaited promise was fulfilled or rejected, the button has that label
    again and is enabled. *)
Theorem submitForm_restores_button (s : state) (btn : button) :
  submitBtn s = Some btn → (validateForm s).2 = true →
  submitBtn (handleSubmit s) = Some (Button loadingText true)
  ∧ timers (handleSubmit s)
    = timers s ++ [(now s + 2000, Resolve (innerHTML btn))]
  ∧ (∀ s', run_task (Resolve (innerHTML btn)) s'
           = submitForm_resume Fulfilled (innerHTML btn) s')
  ∧ (∀ outcome s',
       submitBtn (submitForm_resume outcome (innerHTML btn) s')
       = Some (Button (innerHTML btn) false)).
Proof.
  intros Hbtn Hvalid. pose proof (handleSubmit_valid s btn Hbtn Hvalid) as Hr.
  unfold rest_of in Hr. injection Hr as Hb _ _ _ Ht _ _.
  repeat split; try done.
Qed.

Lemma submitForm_restores_button_witness :
  submitBtn (handleSubmit jane_form) = Some (Button loadingText true)
  ∧ timers (handleSubmit jane_form)
    = timers jane_form ++ [(now jane_form + 2000, Resolve "Send Message")]
  ∧ (∀ s', run_task (Resolve "Send Message") s'
           = submitForm_resume Fulfilled "Send Message" s')
  ∧ (∀ outcome s',
       submitBtn (submitForm_resume outcome "Send Message" s')
       = Some (Button "Send Message" false)).
Proof.
  apply (submitForm_restores_button jane_form (Button "Send Message" false)).
  - reflexivity.
  - vm_compute. reflexivity.
Defined.
















End ContactFormFacts.

(* ===================================================================== *)
(** * Further properties of the script *)
(* ===================================================================== *)

(** ** Class lists, continued *)

Section ClassListMore.
Import Dom.

Lemma remove_add_same c cl : remove c (add c cl) = remove c cl.
Proof.
  unfold add. destruct (contains c cl); [done|].
  unfold remove. rewrite filter_app, filter_cons_False by (intros H; by apply H).
  by rewrite filter_nil, app_nil_r.
Qed.

Lemma remove_absent c cl : contains c cl = false → remove c cl = cl.
Proof.
  unfold contains, remove. intros H%bool_decide_eq_false.
  induction cl as [|x cl IH]; [done|].
  rewrite not_elem_of_cons in H. destruct H as [Hx Hcl].
  rewrite filter_cons_True by done. by rewrite IH.
Qed.

Lemma remove_remove_same c cl : remove c (remove c cl) = remove c cl.
Proof. apply remove_absent, contains_remove_same. Qed.

Lemma add_add_same c cl : add c (add c cl) = add c cl.
Proof. unfold add at 1. by rewrite contains_add_same. Qed.

Lemma add_present c cl : contains c cl = true → add c cl = cl.
Proof. unfold add. by intros ->. Qed.

End ClassListMore.

(** Folds the [filter] that reduction leaves of a [remove] back. *)
Ltac fold_remove :=
  repeat match goal with
         | |- context [filter (λ x : string, x ≠ ?c) ?l] =>
             change (filter (λ x : string, x ≠ c) l) with (Dom.remove c l)
         end.

(** ** Navigation, with the elements in place *)

Section NavigationMore.
Import Dom Navigation.

(** X1. With the menu and both buttons in place, a click on the toggle
    button opens the menu and a click on the close button closes it
    again; the two clicks change no other class of the menu, and a menu
    that was closed before has its class list back as it was. *)
Theorem menu_opens_and_closes (p : page) (m t c : element) :
  navMenu p = Some m → navToggle p = Some t → navClose p = Some c →
  ∃ p1 m1 p2 m2,
    click_navToggle p = Normal p1
    ∧ navMenu p1 = Some m1 ∧ has_class "show-menu" m1 = true
    ∧ click_navClose p1 = Normal p2
    ∧ navMenu p2 = Some m2 ∧ has_class "show-menu" m2 = false
    ∧ (∀ cls, cls ≠ "show-menu" → has_class cls m2 = has_class cls m)
    ∧ (has_class "show-menu" m = false → m2 = m).
Proof.
  intros Hm Ht Hc. unfold click_navToggle, click_navClose, navMenu_show.
  rewrite Ht, Hm. eexists _, _. eexists _, _.
  split; [reflexivity|]. cbn [navMenu set_navMenu navClose].
  split; [reflexivity|]. rewrite Hc. unfold navMenu_hide.
  cbn [navMenu set_navMenu navClose].
  split; [apply has_class_add_same|]. split; [reflexivity|].
  split; [reflexivity|]. split; [apply has_class_remove_same|]. split.
  - intros cls Hne.
    rewrite has_class_remove_other by done. by apply has_class_add_other.
  - intros Hclosed. destruct m as [cl attrs st].
    unfold classList_remove, classList_add; cbn [classList attributes style].
    f_equal. rewrite remove_add_same. by apply remove_absent.
Qed.

Lemma menu_opens_and_closes_witness :
  ∃ p1 m1 p2 m2,
    click_navToggle
      (Page (Some (Element ["nav__menu"] [] [])) (Some (Element [] [] []))
            (Some (Element [] [] [])) None None) = Normal p1
    ∧ navMenu p1 = Some m1 ∧ has_class "show-menu" m1 = true
    ∧ click_navClose p1 = Normal p2
    ∧ navMenu p2 = Some m2 ∧ has_class "show-menu" m2 = false
    ∧ (∀ cls, cls ≠ "show-menu"
              → has_class cls m2 = has_class cls (Element ["nav__menu"] [] []))
    ∧ (has_class "show-menu" (Element ["nav__menu"] [] []) = false
       → m2 = Element ["nav__menu"] [] []).
Proof.
  apply (menu_opens_and_closes
           (Page (Some (Element ["nav__menu"] [] [])) (Some (Element [] [] []))
                 (Some (Element [] [] [])) None None)
           (Element ["nav__menu"] [] []) (Element [] [] []) (Element [] [] []));
    reflexivity.
Defined.

(** X2. The Escape key closes the menu: afterwards the menu does not
    carry [show-menu], its other classes are as before, a menu that was
    closed leaves the page as it was, and [click] is not called.  Any
    other key leaves the page alone, menu or no menu, and calls [click]
    exactly when it is Enter on a filter button. *)
Theorem keydown_closes_menu (p : page) (m : element) (is_btn : bool) :
  navMenu p = Some m →
  (∃ p' m', keydown "Escape" is_btn p = Normal (p', false)
            ∧ navMenu p' = Some m'
            ∧ has_class "show-menu" m' = false
            ∧ (∀ cls, cls ≠ "show-menu" → has_class cls m' = has_class cls m)
            ∧ (has_class "show-menu" m = false → p' = p))
  ∧ (∀ key q, key ≠ "Escape" →
              keydown key is_btn q
              = Normal (q, String.eqb key "Enter" && is_btn)).
Proof.
  intros Hm. split.
  - unfold keydown. cbn [String.eqb Ascii.eqb Bool.eqb andb]. rewrite Hm.
    destruct (has_class "show-menu" m) eqn:E.
    + unfold navMenu_hide. rewrite Hm. eexists _, _.
      split; [reflexivity|]. split; [reflexivity|].
      split; [apply has_class_remove_same|]. split; [|done].
      intros cls Hne. by apply has_class_remove_other.
    + exists p, m. by repeat split.
  - intros key q Hne. unfold keydown.
    apply String.eqb_neq in Hne. by rewrite Hne.
Qed.

Lemma keydown_closes_menu_witness :
  (∃ p' m',
      keydown "Escape" true
        (Page (Some (Element ["show-menu"] [] [])) None None None None)
      = Normal (p', false)
      ∧ navMenu p' = Some m'
      ∧ has_class "show-menu" m' = false
      ∧ (∀ cls, cls ≠ "show-menu"
                → has_class cls m' = has_class cls (Element ["show-menu"] [] []))
      ∧ (has_class "show-menu" (Element ["show-menu"] [] []) = false
         → p' = Page (Some (Element ["show-menu"] [] [])) None None None None))
  ∧ (∀ key q, key ≠ "Escape" →
              keydown key true q = Normal (q, String.eqb key "Enter" && true)).
Proof.
  apply (keydown_closes_menu
           (Page (Some (Element ["show-menu"] [] [])) None None None None)
           (Element ["show-menu"] [] []) true).
  reflexivity.
Defined.

(** X3. A click on a navigation link, with the menu and the header in
    place, whose [href] either does not start with [#] or is [#] followed
    by an identifier ([id_selector]): the menu is closed, and the page
    scrolls to the top of the target section less the height of the
    header when the [href] starts with [#] and names an element; with
    another [href], or without a target, nothing is scrolled. *)
Theorem click_navLink_scrolls_below_header
  (p : page) (m : element) (h : Z) (href : string) (target : option Z) :
  navMenu p = Some m → headerHeight p = Some h →
  String.prefix "#" href = false ∨ id_selector href = true →
  ∃ p1 p2 m',
    click_navLink_close p = Normal p1
    ∧ click_navLink_scroll (Some href) target p1 = Normal p2
    ∧ navMenu p2 = Some m' ∧ has_class "show-menu" m' = false
    ∧ scrolledTo p2
      = match target with
        | Some top => if String.prefix "#" href then Some (top - h)
                      else scrolledTo p
        | None => scrolledTo p
        end.
Proof.
  intros Hm Hh _.
  set (p1 := set_navMenu (classList_remove "show-menu" m) p).
  assert (H1 : click_navLink_close p = Normal p1)
    by (unfold click_navLink_close, navMenu_hide; by rewrite Hm).
  assert (Hh1 : headerHeight p1 = Some h) by done.
  destruct (String.prefix "#" href) eqn:E, target as [top|];
    eexists p1, _, _; (split; [exact H1|]);
    (split; [unfold click_navLink_scroll, smoothScrollToSection;
             rewrite E, ?Hh1; reflexivity|]);
    (split; [reflexivity|]);
    (split; [apply has_class_remove_same | reflexivity]).
Qed.

Lemma click_navLink_scrolls_below_header_witness :
  ∃ p1 p2 m',
    click_navLink_close
      (Page (Some (Element ["show-menu"] [] [])) None None (Some 64) None)
    = Normal p1
    ∧ click_navLink_scroll (Some "#about") (Some 600) p1 = Normal p2
    ∧ navMenu p2 = Some m' ∧ has_class "show-menu" m' = false
    ∧ scrolledTo p2 = Some (600 - 64).
Proof.
  apply (click_navLink_scrolls_below_header
           (Page (Some (Element ["show-menu"] [] [])) None None (Some 64) None)
           (Element ["show-menu"] [] []) 64 "#about" (Some 600));
    [reflexivity | reflexivity | right; reflexivity].
Defined.

End NavigationMore.

(** ** Active link, continued *)

Section ScrollMore.
Import Dom Scroll.

(** The link a section selects, when no later section selects it, ends
    marked exactly when the section is in view. *)
Lemma highlight_fold_decides (p : page) (i k : nat) (s : section) :
  sections p !! i = Some s →
  navLink_of p s = Some k →
  (∀ j s', (i < j)%nat → sections p !! j = Some s' →
           navLink_of p s' ≠ Some k) →
  ∃ e', elements (highlightActiveNavLink p) !! k = Some e'
        ∧ (has_class "active-link" e' = true ↔ in_view (pageYOffset p) s).
Proof.
  intros Hi Hk Hlater. unfold navLink_of in *.
  unfold highlightActiveNavLink; cbn [elements].
  rewrite <- (take_drop_middle _ _ _ Hi), foldl_app. cbn [foldl].
  assert (Hsel : ∀ sid,
             matches_navLink sid
               <$> foldl (highlightSection (pageYOffset p + 200)) (elements p)
                         (take i (sections p))
             = matches_navLink sid <$> elements p)
    by (intros; apply highlight_fold_sel).
  destruct (highlightSection_self (pageYOffset p) _ s k
              (eq_trans (querySelector_fmap _ _ _ (Hsel (id s))) Hk))
    as (e' & He' & Hiff).
  exists e'. split; [|exact Hiff].
  rewrite highlight_fold_other; [exact He'|].
  apply Forall_lookup. intros j s' Hj. rewrite lookup_drop in Hj.
  rewrite (querySelector_fmap _ _ _ (highlightSection_sel _ _ s (id s'))).
  rewrite (querySelector_fmap _ _ _ (Hsel (id s'))).
  apply (Hlater (S i + j)%nat s'); [lia | exact Hj].
Qed.

(** X4. [highlightActiveNavLink] changes nothing but the class
    [active-link]: the header, the sections and the scroll offset stay,
    there are as many elements as before, and every element keeps its
    attributes, its inline style and every other class. *)
Theorem highlight_changes_active_link_only (p : page) (c : string) :
  c ≠ "active-link" →
  header (highlightActiveNavLink p) = header p
  ∧ sections (highlightActiveNavLink p) = sections p
  ∧ pageYOffset (highlightActiveNavLink p) = pageYOffset p
  ∧ (λ e, (attributes e, style e, has_class c e))
      <$> elements (highlightActiveNavLink p)
    = (λ e, (attributes e, style e, has_class c e)) <$> elements p.
Proof.
  intros Hc. repeat split. unfold highlightActiveNavLink; cbn [elements].
  generalize (elements p) as els. generalize (pageYOffset p + 200) as y.
  intros y. induction (sections p) as [|s secs IH]; intros els; [done|].
  cbn [foldl]. rewrite IH.
  unfold highlightSection, optional_add, optional_remove.
  destruct (_ && _); destruct (querySelector _ els) as [k|]; try done;
    apply fmap_alter_same; intros e; cbn [attributes style classList_add
                                           classList_remove];
    f_equal; [by apply has_class_add_other | by apply has_class_remove_other].
Qed.

Lemma highlight_changes_active_link_only_witness :
  header (highlightActiveNavLink (stacked_page 500)) = header (stacked_page 500)
  ∧ sections (highlightActiveNavLink (stacked_page 500))
    = sections (stacked_page 500)
  ∧ pageYOffset (highlightActiveNavLink (stacked_page 500))
    = pageYOffset (stacked_page 500)
  ∧ (λ e, (attributes e, style e, has_class "nav__link" e))
      <$> elements (highlightActiveNavLink (stacked_page 500))
    = (λ e, (attributes e, style e, has_class "nav__link" e))
      <$> elements (stacked_page 500).
Proof.
  apply (highlight_changes_active_link_only (stacked_page 500) "nav__link").
  discriminate.
Defined.

(** X5. Sections whose selectors find no element are passed over in
    silence: on a page whose sections have plain ids, when no section has
    a navigation link, [highlightActiveNavLink] leaves the page as it
    is. *)
Theorem highlight_without_links (p : page) :
  plain_ids p →
  Forall (λ s, navLink_of p s = None) (sections p) →
  highlightActiveNavLink p = p.
Proof.
  intros _ H. unfold highlightActiveNavLink, navLink_of in *.
  assert (Hfold : foldl (highlightSection (pageYOffset p + 200))
                        (elements p) (sections p) = elements p).
  { induction H as [|s secs Hs _ IH]; [done|]. cbn [foldl].
    unfold highlightSection at 2. rewrite Hs.
    unfold optional_add, optional_remove. by destruct (_ && _). }
  rewrite Hfold. by destruct p.
Qed.

Lemma highlight_without_links_witness :
  highlightActiveNavLink
    (Page None [Section_ "about" 600 400]
          [Element ["btn"] [("href", "#about")] []] 300)
  = Page None [Section_ "about" 600 400]
         [Element ["btn"] [("href", "#about")] []] 300.
Proof.
  apply (highlight_without_links
           (Page None [Section_ "about" 600 400]
                 [Element ["btn"] [("href", "#about")] []] 300));
    repeat constructor.
Defined.

(** X6. On a page whose sections have plain ids, two sections laid out
    one below the other without overlap, each the last to select its
    link, never have their links marked together: after
    [highlightActiveNavLink] at most one of the two carries
    [active-link]. *)
Theorem stacked_sections_not_both_active
  (p : page) (i j k1 k2 : nat) (s1 s2 : section) :
  plain_ids p →
  sections p !! i = Some s1 → sections p !! j = Some s2 →
  navLink_of p s1 = Some k1 → navLink_of p s2 = Some k2 →
  (∀ n s', (i < n)%nat → sections p !! n = Some s' →
           navLink_of p s' ≠ Some k1) →
  (∀ n s', (j < n)%nat → sections p !! n = Some s' →
           navLink_of p s' ≠ Some k2) →
  offsetTop s1 + offsetHeight s1 ≤ offsetTop s2 →
  ∃ e1 e2,
    elements (highlightActiveNavLink p) !! k1 = Some e1
    ∧ elements (highlightActiveNavLink p) !! k2 = Some e2
    ∧ ¬ (has_class "active-link" e1 = true
         ∧ has_class "active-link" e2 = true).
Proof.
  intros _ Hi Hj Hk1 Hk2 Hl1 Hl2 Hbelow.
  destruct (highlight_fold_decides p i k1 s1 Hi Hk1 Hl1) as (e1 & He1 & H1).
  destruct (highlight_fold_decides p j k2 s2 Hj Hk2 Hl2) as (e2 & He2 & H2).
  exists e1, e2. split; [done|]. split; [done|].
  rewrite H1, H2. unfold in_view. lia.
Qed.

Lemma stacked_sections_not_both_active_witness :
  ∃ e1 e2,
    elements (highlightActiveNavLink (stacked_page 600)) !! 0%nat = Some e1
    ∧ elements (highlightActiveNavLink (stacked_page 600)) !! 1%nat = Some e2
    ∧ ¬ (has_class "active-link" e1 = true
         ∧ has_class "active-link" e2 = true).
Proof.
  apply (stacked_sections_not_both_active (stacked_page 600) 0 1 0 1
           (Section_ "about" 600 400) (Section_ "projects" 1000 500)).
  - repeat constructor.
  - reflexivity.
  - reflexivity.
  - reflexivity.
  - reflexivity.
  - intros [|[|n]] s' Hlt Hn; [lia | | discriminate Hn].
    injection Hn as <-. discriminate.
  - intros [|[|n]] s' Hlt Hn; [lia | lia | discriminate Hn].
  - simpl. lia.
Defined.

End ScrollMore.

(** ** Project filter, continued *)

Section ProjectFilterMore.
Import Dom ProjectFilter.

Lemma filterCards_closed flt (cards : list element) :
  ∀ i tms, ∃ new,
    filterCards flt i cards tms = (showOrHide flt <$> cards, tms ++ new)
    ∧ length new
      = length (filter (λ c, has_class "hide" c = false)
                       (showOrHide flt <$> cards)).
Proof.
  induction cards as [|c cards IH]; intros i tms.
  - exists []. by rewrite app_nil_r.
  - cbn [filterCards fmap list_fmap]. unfold showOrHide at 1 3.
    destruct (shouldShow flt _) eqn:E.
    + destruct (IH (S i) (tms ++ [Timer 100 i])) as (new & -> & Hlen).
      exists (Timer 100 i :: new). split; [by rewrite <- app_assoc|].
      rewrite filter_cons_True by apply has_class_remove_same.
      simpl. by rewrite Hlen.
    + destruct (IH (S i) tms) as (new & -> & Hlen).
      exists new. split; [done|].
      rewrite filter_cons_False; [done|].
      by rewrite has_class_add_same.
Qed.

Lemma handleFilter_closed b pf btn :
  filterButtons pf !! b = Some btn →
  ∃ new,
    handleFilter b pf
    = {| filterButtons :=
           alter (classList_add "filter__btn--active") b
                 (classList_remove "filter__btn--active" <$> filterButtons pf);
         projectCards :=
           showOrHide (getAttribute "data-filter" (attributes btn))
             <$> projectCards pf;
         timers := timers pf ++ new |}
    ∧ length new
      = length (filter (λ c, has_class "hide" c = false)
                  (showOrHide (getAttribute "data-filter" (attributes btn))
                     <$> projectCards pf)).
Proof.
  intros Hb. unfold handleFilter. rewrite Hb.
  unfold filterProjects, updateActiveButton.
  cbn [projectCards timers filterButtons].
  destruct (filterCards_closed (getAttribute "data-filter" (attributes btn))
              (projectCards pf) 0 (timers pf)) as (new & -> & Hlen).
  by exists new.
Qed.

(** X7. A click on a button whose filter value is ["all"] shows every
    card: afterwards no card carries [hide], and one timer was added for
    every card. *)
Theorem filter_all_shows_every_card (pf : t) (b : nat) (btn : element) :
  filterButtons pf !! b = Some btn →
  getAttribute "data-filter" (attributes btn) = Some "all" →
  Forall (λ c, has_class "hide" c = false) (projectCards (handleFilter b pf))
  ∧ length (timers (handleFilter b pf))
    = (length (timers pf) + length (projectCards pf))%nat.
Proof.
  intros Hb Hall. destruct (handleFilter_closed b pf btn Hb) as (new & -> & Hlen).
  cbn [projectCards timers]. rewrite Hall in *.
  assert (Hshown : Forall (λ c, has_class "hide" c = false)
                     (showOrHide (Some "all") <$> projectCards pf)).
  { apply Forall_fmap, Forall_true. intros c. unfold showOrHide.
    cbn. apply has_class_remove_same. }
  split; [done|].
  rewrite length_app, Hlen.
  assert (Hall' : ∀ l : list element,
             Forall (λ c, has_class "hide" c = false) l →
             filter (λ c, has_class "hide" c = false) l = l).
  { induction 1 as [|x l Hx _ IH]; [done|].
    by rewrite filter_cons_True, IH. }
  by rewrite Hall', length_fmap.
Qed.

Lemma filter_all_shows_every_card_witness :
  Forall (λ c, has_class "hide" c = false)
         (projectCards (handleFilter 0 (handleFilter 1 gallery)))
  ∧ length (timers (handleFilter 0 (handleFilter 1 gallery)))
    = (length (timers (handleFilter 1 gallery))
       + length (projectCards (handleFilter 1 gallery)))%nat.
Proof.
  apply (filter_all_shows_every_card (handleFilter 1 gallery) 0
           (Element ["filter__btn"] [("data-filter", "all")] []));
    reflexivity.
Defined.

(** X8. A click on a filter button changes classes only: there are as
    many buttons and cards as before, every one keeps its attributes and
    its inline style, a button keeps every class but
    [filter__btn--active], and a card every class but [hide]. *)
Theorem handleFilter_changes_classes_only (pf : t) (b : nat) (c : string) :
  (c ≠ "filter__btn--active" →
   (λ e, (attributes e, style e, has_class c e))
     <$> filterButtons (handleFilter b pf)
   = (λ e, (attributes e, style e, has_class c e)) <$> filterButtons pf)
  ∧ (c ≠ "hide" →
     (λ e, (attributes e, style e, has_class c e))
       <$> projectCards (handleFilter b pf)
     = (λ e, (attributes e, style e, has_class c e)) <$> projectCards pf).
Proof.
  destruct (filterButtons pf !! b) as [btn|] eqn:Hb;
    [|unfold handleFilter; by rewrite Hb].
  destruct (handleFilter_closed b pf btn Hb) as (new & -> & _).
  cbn [filterButtons projectCards]. split; intros Hc.
  - rewrite fmap_alter_same.
    + rewrite <- list_fmap_compose. apply list_fmap_ext. intros _ e _. cbn.
      by rewrite has_class_remove_other.
    + intros e. cbn. by rewrite has_class_add_other.
  - rewrite <- list_fmap_compose. apply list_fmap_ext. intros _ e _. cbn.
    unfold showOrHide. destruct (shouldShow _ _); cbn;
      [by rewrite has_class_remove_other | by rewrite has_class_add_other].
Qed.

(** X9. A click cancels no timer: the timers that were pending are still
    there, in their order, followed by one new timer for every card that
    the click leaves visible. *)
Theorem handleFilter_keeps_timers (pf : t) (b : nat) (btn : element) :
  filterButtons pf !! b = Some btn →
  take (length (timers pf)) (timers (handleFilter b pf)) = timers pf
  ∧ length (timers (handleFilter b pf))
    = (length (timers pf) + length (visible (handleFilter b pf)))%nat.
Proof.
  intros Hb. destruct (handleFilter_closed b pf btn Hb) as (new & -> & Hlen).
  unfold visible. cbn [projectCards timers]. split.
  - by rewrite take_app_length.
  - by rewrite length_app, Hlen.
Qed.

Lemma handleFilter_keeps_timers_witness :
  take (length (timers (handleFilter 0 gallery)))
       (timers (handleFilter 1 (handleFilter 0 gallery)))
  = timers (handleFilter 0 gallery)
  ∧ length (timers (handleFilter 1 (handleFilter 0 gallery)))
    = (length (timers (handleFilter 0 gallery))
       + length (visible (handleFilter 1 (handleFilter 0 gallery))))%nat.
Proof.
  apply (handleFilter_keeps_timers (handleFilter 0 gallery) 1
           (Element ["filter__btn"] [("data-filter", "web")] []));
    reflexivity.
Defined.

(** X10. A second click on the same button changes no class: the buttons
    and the cards are after two clicks as they are after one. *)
Theorem handleFilter_twice (pf : t) (b : nat) :
  filterButtons (handleFilter b (handleFilter b pf))
  = filterButtons (handleFilter b pf)
  ∧ projectCards (handleFilter b (handleFilter b pf))
    = projectCards (handleFilter b pf).
Proof.
  destruct (filterButtons pf !! b) as [btn|] eqn:Hb;
    [|unfold handleFilter; by rewrite !Hb].
  destruct (handleFilter_closed b pf btn Hb) as (new & -> & _).
  set (pf1 := {| filterButtons := _; projectCards := _; timers := _ |}).
  assert (Hb1 : filterButtons pf1 !! b
                = Some (classList_add "filter__btn--active"
                          (classList_remove "filter__btn--active" btn))).
  { unfold pf1. cbn [filterButtons].
    by rewrite list_lookup_alter_eq, list_lookup_fmap, Hb. }
  destruct (handleFilter_closed b pf1 _ Hb1) as (new' & -> & _).
  unfold pf1. cbn [filterButtons projectCards attributes classList_add
                   classList_remove]. split.
  - apply list_eq. intros j. destruct (decide (j = b)) as [->|Hne].
    + rewrite !list_lookup_alter_eq, !list_lookup_fmap, !list_lookup_alter_eq,
        !list_lookup_fmap, Hb. cbn. f_equal.
      unfold classList_add, classList_remove; cbn. f_equal. fold_remove.
      by rewrite remove_add_same, remove_remove_same.
    + rewrite !list_lookup_alter_ne by done.
      rewrite !list_lookup_fmap, !list_lookup_alter_ne by done.
      rewrite list_lookup_fmap. destruct (filterButtons pf !! j); [|done].
      cbn. f_equal. unfold classList_remove; cbn. f_equal. fold_remove.
      apply remove_remove_same.
  - rewrite <- list_fmap_compose. apply list_fmap_ext. intros _ c _. cbn.
    unfold showOrHide.
    destruct (shouldShow _ (getAttribute "data-category" (attributes c)))
      eqn:E; cbn; rewrite E; unfold classList_remove, classList_add; cbn;
      f_equal; fold_remove; [apply remove_remove_same | apply add_add_same].
Qed.

End ProjectFilterMore.

(** ** Fade-in animations, continued *)

Section ScrollAnimationsMore.
Import Dom ScrollAnimations.

Lemma entry_eta (en : entry) : en = Entry (target en) (isIntersecting en).
Proof. by destruct en. Qed.

Lemma fadeCallback_untouched entries (els : list element) i :
  Entry i true ∉ entries → fadeCallback entries els !! i = els !! i.
Proof.
  unfold fadeCallback. revert els.
  induction entries as [|en entries IH]; intros els Hnot; [done|].
  apply not_elem_of_cons in Hnot as [Hne Hnot]. cbn [foldl].
  rewrite IH by done. destruct (isIntersecting en) eqn:E; [|done].
  apply list_lookup_alter_ne. intros <-. apply Hne.
  by rewrite (entry_eta en), E.
Qed.

(** X11. No element fades in before it intersects: through any batches
    of entries in which the element at [i] is never reported as
    intersecting, that element stays exactly as it was. *)
Theorem fade_only_on_intersection
  (batches : list (list entry)) (els : list element) (i : nat) :
  Forall (λ batch, Entry i true ∉ batch) batches →
  foldl (λ els batch, fadeCallback batch els) els batches !! i = els !! i.
Proof.
  revert els. induction batches as [|b batches IH]; intros els H; [done|].
  inversion H as [|? ? Hb Hrest]; subst. cbn [foldl].
  rewrite IH by done. by apply fadeCallback_untouched.
Qed.

Lemma fade_only_on_intersection_witness :
  foldl (λ els batch, fadeCallback batch els)
        [Element ["project__card"] [] []; Element ["section__header"] [] []]
        [[Entry 0 false; Entry 1 true]; [Entry 0 false]] !! 0%nat
  = [Element ["project__card"] [] []; Element ["section__header"] [] []]
      !! 0%nat.
Proof.
  apply (fade_only_on_intersection
           [[Entry 0 false; Entry 1 true]; [Entry 0 false]]
           [Element ["project__card"] [] []; Element ["section__header"] [] []]
           0).
  repeat constructor; intros H;
    repeat (apply elem_of_cons in H as [H|H]; [discriminate H|]);
    by apply elem_of_nil in H.
Defined.

Lemma fadeIn_fadeIn e : fadeIn (fadeIn e) = fadeIn e.
Proof.
  unfold fadeIn, classList_add; cbn. f_equal.
  rewrite (add_present "animate-on-scroll").
  - apply add_add_same.
  - rewrite contains_add_other by done. apply contains_add_same.
Qed.

Lemma fadeCallback_fadeIn_fixed entries (els : list element) i e :
  els !! i = Some (fadeIn e) → fadeCallback entries els !! i = Some (fadeIn e).
Proof.
  unfold fadeCallback. revert els.
  induction entries as [|en entries IH]; intros els Hi; [done|].
  cbn [foldl]. apply IH. destruct (isIntersecting en); [|done].
  destruct (decide (target en = i)) as [->|Hne].
  - by rewrite list_lookup_alter_eq, Hi; cbn; rewrite fadeIn_fadeIn.
  - by rewrite list_lookup_alter_ne.
Qed.

(** X12. A batch that reports an observed element as intersecting leaves
    it with [animate-on-scroll] and [animated] added and nothing else
    changed, however often and in whatever order the batch reports it. *)
Theorem fadeCallback_fades_in
  (entries : list entry) (els : list element) (i : nat) (e : element) :
  els !! i = Some e → Entry i true ∈ entries →
  fadeCallback entries els !! i = Some (fadeIn e)
  ∧ has_class "animated" (fadeIn e) = true
  ∧ has_class "animate-on-scroll" (fadeIn e) = true
  ∧ attributes (fadeIn e) = attributes e ∧ style (fadeIn e) = style e
  ∧ ∀ c, c ≠ "animated" → c ≠ "animate-on-scroll" →
         has_class c (fadeIn e) = has_class c e.
Proof.
  intros Hi Hin. split; [|split; [|split; [|split; [|split]]]]; try done.
  - unfold fadeCallback. revert els Hi.
    induction entries as [|en entries IH]; intros els Hi;
      [by apply elem_of_nil in Hin|].
    cbn [foldl]. apply elem_of_cons in Hin as [<-|Hin].
    + cbn [isIntersecting target].
      apply (fadeCallback_fadeIn_fixed entries).
      by rewrite list_lookup_alter_eq, Hi.
    + destruct (isIntersecting en); [|by apply IH].
      destruct (decide (target en = i)) as [->|Hne].
      * apply (fadeCallback_fadeIn_fixed entries).
        by rewrite list_lookup_alter_eq, Hi.
      * apply IH; [done|]. by rewrite list_lookup_alter_ne.
  - apply has_class_add_same.
  - unfold fadeIn. rewrite has_class_add_other by done.
    apply has_class_add_same.
  - intros c H1 H2. unfold fadeIn. by rewrite !has_class_add_other.
Qed.

Lemma fadeCallback_fades_in_witness :
  fadeCallback [Entry 0 false; Entry 0 true; Entry 0 true]
               [Element ["project__card"; "hide"] [] []] !! 0%nat
  = Some (fadeIn (Element ["project__card"; "hide"] [] []))
  ∧ has_class "animated" (fadeIn (Element ["project__card"; "hide"] [] []))
    = true
  ∧ has_class "animate-on-scroll"
      (fadeIn (Element ["project__card"; "hide"] [] [])) = true
  ∧ attributes (fadeIn (Element ["project__card"; "hide"] [] [])) = []
  ∧ style (fadeIn (Element ["project__card"; "hide"] [] [])) = []
  ∧ ∀ c, c ≠ "animated" → c ≠ "animate-on-scroll" →
         has_class c (fadeIn (Element ["project__card"; "hide"] [] []))
         = has_class c (Element ["project__card"; "hide"] [] []).
Proof.
  apply (fadeCallback_fades_in [Entry 0 false; Entry 0 true; Entry 0 true]
           [Element ["project__card"; "hide"] [] []] 0
           (Element ["project__card"; "hide"] [] [])).
  - reflexivity.
  - apply elem_of_cons. right. apply elem_of_cons. by left.
Defined.

End ScrollAnimationsMore.

(** ** Skill bars *)

Section SkillBarsFacts.
Import Dom SkillBars.
Implicit Types (s : state) (ts : list (Z * nat)).

Lemma stagger_elem (skills : list element) now :
  ∀ index pending x,
    x ∈ stagger index skills now pending
    ↔ x ∈ pending
      ∨ ((index ≤ x.2 < index + length skills)%nat
         ∧ x.1 = now + Z.of_nat x.2 * 200).
Proof.
  induction skills as [|sk skills IH]; intros index pending x;
    cbn [stagger length].
  - split; [by left | intros [H|[H _]]; [done | lia]].
  - rewrite IH, elem_of_app, list_elem_of_singleton. split.
    + intros [[H| ->]|[H1 H2]].
      * by left.
      * right. cbn. split; [lia | done].
      * right. split; [lia | done].
    + intros [H|[H1 H2]]; [by left; left|].
      destruct (decide (x.2 = index)) as [Heq|Hne].
      * left. right. destruct x as [d k]; cbn in *. by subst.
      * right. split; [lia | done].
Qed.

Lemma earliest_None ts : earliest ts = None → ts = [].
Proof.
  destruct ts as [|t rest]; [done|]. cbn.
  destruct (earliest rest) as [[t' rest']|]; [|done].
  by destruct (t.1 <=? t'.1).
Qed.

(** [earliest] takes a timer that is due no later than any other out of
    the queue, and leaves the others. *)
Lemma earliest_Some ts x rest :
  earliest ts = Some (x, rest) →
  ts ≡ₚ x :: rest ∧ Forall (λ y, x.1 ≤ y.1) rest.
Proof.
  revert x rest. induction ts as [|t ts IH]; intros x rest; [done|]. cbn.
  destruct (earliest ts) as [[t' rest']|] eqn:E.
  - destruct (IH t' rest' eq_refl) as [Hperm Hall].
    destruct (t.1 <=? t'.1) eqn:Hle; intros [= <- <-].
    + split; [done|]. apply Z.leb_le in Hle. rewrite Hperm.
      constructor; [done|]. eapply Forall_impl; [exact Hall|].
      intros y Hy. cbn in Hy. lia.
    + apply Z.leb_gt in Hle. split.
      * rewrite Hperm. apply Permutation_swap.
      * constructor; [lia | done].
  - apply earliest_None in E as ->. intros [= <- <-]. by split.
Qed.

Lemma revealed_fire tm rest s i :
  revealed (fire tm rest s) i = true
  ↔ revealed s i = true ∨ (i = tm.2 ∧ (i < length (skills s))%nat).
Proof.
  unfold revealed, fire; cbn [skills].
  destruct (decide (i = tm.2)) as [->|Hne].
  - rewrite list_lookup_alter_eq.
    destruct (skills s !! tm.2) as [sk|] eqn:E; cbn.
    + rewrite has_class_add_same. apply lookup_lt_Some in E. tauto.
    + apply lookup_ge_None in E. split; [done|]. intros [H|[_ H]]; [done|lia].
  - rewrite list_lookup_alter_ne by done. tauto.
Qed.

(** The skills that are marked once the timers due by [t] have fired:
    those that were, and those with a timer due by [t]. *)
Lemma fire_due_revealed t :
  ∀ fuel s, (length (pending s) ≤ fuel)%nat →
    ∀ i, revealed (fire_due fuel t s) i = true
         ↔ revealed s i = true
           ∨ ((i < length (skills s))%nat
              ∧ ∃ d, (d, i) ∈ pending s ∧ d ≤ t).
Proof.
  induction fuel as [|fuel IH]; intros s Hlen i; cbn [fire_due].
  - destruct (pending s); [|cbn in Hlen; lia].
    split; [by left|]. intros [H|(_ & d & H & _)]; [done|].
    by apply elem_of_nil in H.
  - destruct (earliest (pending s)) as [[tm rest]|] eqn:E.
    + destruct (earliest_Some _ _ _ E) as [Hperm Hall].
      assert (Hlen' : (length rest ≤ fuel)%nat).
      { apply Permutation_length in Hperm. cbn in Hperm. lia. }
      destruct (tm.1 <=? t) eqn:Hdue.
      * apply Z.leb_le in Hdue. rewrite (IH (fire tm rest s) Hlen' i).
        rewrite revealed_fire. cbn [fire skills pending].
        rewrite length_alter. split.
        -- intros [[H|[-> H]]|(Hi & d & Hd & Hle)].
           ++ by left.
           ++ right. split; [done|]. exists tm.1. split; [|done].
              rewrite Hperm. destruct tm. by left.
           ++ right. split; [done|]. exists d. split; [|done].
              rewrite Hperm. by right.
        -- intros [H|(Hi & d & Hd & Hle)]; [by left; left|].
           rewrite Hperm in Hd. apply elem_of_cons in Hd as [<-|Hd].
           ++ left. right. by split.
           ++ right. split; [done|]. by exists d.
      * apply Z.leb_gt in Hdue. split; [by left|].
        intros [H|(Hi & d & Hd & Hle)]; [done|].
        rewrite Hperm in Hd. apply elem_of_cons in Hd as [<-|Hd].
        -- cbn in Hdue. lia.
        -- apply (proj1 (Forall_forall _ _) Hall) in Hd. cbn in Hd. lia.
    + apply earliest_None in E. rewrite E.
      split; [by left|]. intros [H|(_ & d & H & _)]; [done|].
      by apply elem_of_nil in H.
Qed.

(** X13. The skill bars are revealed one after the other: when the
    skills section intersects at a time at which no timer is pending,
    then at any later time [T] the skills that carry [animate] are those
    that carried it before and those whose index times 200 ms has passed
    since the intersection. *)
Theorem skills_revealed_in_turn (s : state) (T : Z) (i : nat) :
  skillSection s = true → pending s = [] →
  revealed (advance T (deliver [true] s)) i = true
  ↔ revealed s i = true
    ∨ ((i < length (skills s))%nat ∧ now s + Z.of_nat i * 200 ≤ T).
Proof.
  intros Hsec Hpend. unfold deliver. rewrite Hsec.
  unfold skillCallback. cbn [foldl]. rewrite Hpend.
  unfold advance. cbn [pending].
  change (revealed ?x i) with
    (match skills x !! i with Some sk => has_class "animate" sk | None => false end).
  cbn [skills].
  set (s1 := {| skillSection := skillSection s; skills := skills s;
                now := now s;
                pending := stagger 0 (skills s) (now s) [] |}).
  change (match skills (fire_due ?n T s1) !! i with
          | Some sk => has_class "animate" sk | None => false end)
    with (revealed (fire_due n T s1) i).
  rewrite (fire_due_revealed T _ s1) by done.
  unfold s1 at 1 2 3. cbn [skills pending]. unfold revealed.
  split.
  - intros [H|(Hi & d & Hd & Hle)]; [by left|]. right. split; [done|].
    apply stagger_elem in Hd as [Hd|[_ Hd]]; [by apply elem_of_nil in Hd|].
    cbn in Hd. lia.
  - intros [H|[Hi Hle]]; [by left|]. right. split; [done|].
    exists (now s + Z.of_nat i * 200). split; [|done].
    apply stagger_elem. right. cbn. split; [lia | done].
Qed.

Lemma skills_revealed_in_turn_witness :
  revealed (advance 450 (deliver [true] four_skills)) 2 = true
  ↔ revealed four_skills 2 = true
    ∨ ((2 < length (skills four_skills))%nat ∧ now four_skills + Z.of_nat 2 * 200 ≤ 450).
Proof.
  apply (skills_revealed_in_turn four_skills 450 2); reflexivity.
Defined.

End SkillBarsFacts.

Example skills_at_450ms :
  SkillBars.revealed
    (SkillBars.advance 450 (SkillBars.deliver [true] SkillBars.four_skills))
    <$> [0; 1; 2; 3]%nat
  = [true; true; true; false].
Proof. reflexivity. Qed.

(** ** Lazy loading *)

Section LazyLoadingFacts.
Import Dom LazyLoading.
Import ScrollAnimations (entry, Entry, target, isIntersecting).
Implicit Types (imgs : list image) (img : image).

#[local] Instance entry_eq_dec : EqDecision entry.
Proof. solve_decision. Defined.

Lemma lazyCallback_untouched entries imgs i :
  Entry i true ∉ entries → lazyCallback entries imgs !! i = imgs !! i.
Proof.
  unfold lazyCallback. revert imgs.
  induction entries as [|en entries IH]; intros imgs Hnot; [done|].
  apply not_elem_of_cons in Hnot as [Hne Hnot]. cbn [foldl].
  rewrite IH by done. destruct (isIntersecting en) eqn:E; [|done].
  apply list_lookup_alter_ne. intros <-. apply Hne.
  by rewrite (entry_eta en), E.
Qed.

Lemma deliver_untouched entries imgs i :
  Entry i true ∉ entries → deliver entries imgs !! i = imgs !! i.
Proof.
  intros Hnot. unfold deliver. apply lazyCallback_untouched.
  intros Hin. apply list_elem_of_filter in Hin as [_ Hin]. done.
Qed.

(** X14. An image receives its real source only after it intersects:
    through any batches of entries in which the image at [i] is never
    reported as intersecting, its [src], its classes and its observation
    stay as they were. *)
Theorem lazy_image_waits (batches : list (list entry)) imgs (i : nat) :
  Forall (λ batch, Entry i true ∉ batch) batches →
  run batches imgs !! i = imgs !! i.
Proof.
  unfold run. revert imgs.
  induction batches as [|b batches IH]; intros imgs H; [done|].
  inversion H as [|? ? Hb Hrest]; subst. cbn [foldl].
  rewrite IH by done. by apply deliver_untouched.
Qed.

Lemma lazy_image_waits_witness :
  run [[Entry 0 false; Entry 1 true]; [Entry 0 false]]
      (initializeLazyLoading two_images) !! 0%nat
  = initializeLazyLoading two_images !! 0%nat.
Proof.
  apply (lazy_image_waits [[Entry 0 false; Entry 1 true]; [Entry 0 false]]
           (initializeLazyLoading two_images) 0).
  repeat constructor; intros H;
    repeat (apply elem_of_cons in H as [H|H]; [discriminate H|]);
    by apply elem_of_nil in H.
Defined.

Lemma load_load img : load (load img) = load img.
Proof.
  unfold load; cbn. f_equal. apply remove_remove_same.
Qed.

Lemma lazyCallback_loaded_fixed entries imgs i img :
  imgs !! i = Some (load img) →
  lazyCallback entries imgs !! i = Some (load img).
Proof.
  unfold lazyCallback. revert imgs.
  induction entries as [|en entries IH]; intros imgs Hi; [done|].
  cbn [foldl]. apply IH. destruct (isIntersecting en); [|done].
  destruct (decide (target en = i)) as [->|Hne].
  - by rewrite list_lookup_alter_eq, Hi; cbn; rewrite load_load.
  - by rewrite list_lookup_alter_ne.
Qed.

Lemma lazyCallback_loads entries imgs i img :
  imgs !! i = Some img → Entry i true ∈ entries →
  lazyCallback entries imgs !! i = Some (load img).
Proof.
  unfold lazyCallback. revert imgs.
  induction entries as [|en entries IH]; intros imgs Hi Hin;
    [by apply elem_of_nil in Hin|].
  cbn [foldl]. apply elem_of_cons in Hin as [<-|Hin].
  - cbn [isIntersecting target].
    apply (lazyCallback_loaded_fixed entries).
    by rewrite list_lookup_alter_eq, Hi.
  - destruct (isIntersecting en); [|by apply IH].
    destruct (decide (target en = i)) as [->|Hne].
    + apply (lazyCallback_loaded_fixed entries).
      by rewrite list_lookup_alter_eq, Hi.
    + apply IH; [|done]. by rewrite list_lookup_alter_ne.
Qed.

Lemma run_loaded_fixed batches imgs i img :
  imgs !! i = Some (load img) → run batches imgs !! i = Some (load img).
Proof.
  unfold run. revert imgs.
  induction batches as [|b batches IH]; intros imgs Hi; [done|].
  cbn [foldl]. apply IH. unfold deliver.
  by apply lazyCallback_loaded_fixed.
Qed.

(** X15. An observed image that some batch reports as intersecting ends
    loaded, whatever else the batches hold and whatever comes later: its
    [src] is its [data-src], it does not carry [lazy], and it is not
    observed any more. *)
Theorem lazy_image_loads_once
  (batches : list (list entry)) imgs (i : nat) img :
  imgs !! i = Some img → observed img = true →
  Exists (λ batch, Entry i true ∈ batch) batches →
  run batches imgs !! i = Some (load img)
  ∧ src (load img) = Some (dataSrc img)
  ∧ contains "lazy" (imgClassList (load img)) = false
  ∧ observed (load img) = false.
Proof.
  intros Hi Hobs Hex. split; [|split; [done|split; [|done]]].
  - revert imgs Hi. induction batches as [|b batches IH]; intros imgs Hi;
      [by apply Exists_nil in Hex|].
    unfold run. cbn [foldl]. fold (run batches (deliver b imgs)).
    destruct (decide (Entry i true ∈ b)) as [Hin|Hnot].
    + apply run_loaded_fixed. unfold deliver.
      apply lazyCallback_loads; [done|].
      apply list_elem_of_filter. split; [|done]. cbn. by rewrite Hi; cbn; f_equal.
    + apply Exists_cons in Hex as [Hex|Hex]; [done|].
      apply IH; [done|]. by rewrite deliver_untouched.
  - apply contains_remove_same.
Qed.

Lemma lazy_image_loads_once_witness :
  run [[Entry 0 false]; [Entry 1 true; Entry 0 true]; [Entry 0 true]]
      (initializeLazyLoading two_images) !! 0%nat
  = Some (load (Image None "a.png" ["lazy"] true))
  ∧ src (load (Image None "a.png" ["lazy"] true)) = Some "a.png"
  ∧ contains "lazy" (imgClassList (load (Image None "a.png" ["lazy"] true)))
    = false
  ∧ observed (load (Image None "a.png" ["lazy"] true)) = false.
Proof.
  apply (lazy_image_loads_once
           [[Entry 0 false]; [Entry 1 true; Entry 0 true]; [Entry 0 true]]
           (initializeLazyLoading two_images) 0
           (Image None "a.png" ["lazy"] true)).
  - reflexivity.
  - reflexivity.
  - apply Exists_cons. right. apply Exists_cons. left.
    apply elem_of_cons. right. apply elem_of_cons. by left.
Defined.

End LazyLoadingFacts.

(** ** Feature detection *)

Section FeatureSupportFacts.
Import Dom FeatureSupport.

(** X16. What page load does to a fade element.  With
    [IntersectionObserver] the element gets [animate-on-scroll] and is
    not animated by loading.  Without it the script tags nothing: the
    element keeps its classes, except that the fallback adds [animated]
    when the markup already gave it [animate-on-scroll]. *)
Theorem fade_elements_after_load
  (grid : bool) (fadeElements : list element) (body : element)
  (i : nat) (e : element) :
  fadeElements !! i = Some e →
  loadFadeElements true grid fadeElements body !! i
  = Some (classList_add "animate-on-scroll" e)
  ∧ has_class "animated" (classList_add "animate-on-scroll" e)
    = has_class "animated" e
  ∧ loadFadeElements false grid fadeElements body !! i
    = Some (if has_class "animate-on-scroll" e
            then classList_add "animated" e else e).
Proof.
  intros Hi. unfold loadFadeElements, checkFeatureSupport. cbn [fst].
  unfold ScrollAnimations.createFadeInObserver.
  rewrite !list_lookup_fmap, Hi. split; [done|]. split; [|done].
  by apply has_class_add_other.
Qed.

Lemma fade_elements_after_load_witness :
  loadFadeElements true true [Element ["section__header"] [] []]
                   (Element [] [] []) !! 0%nat
  = Some (classList_add "animate-on-scroll" (Element ["section__header"] [] []))
  ∧ has_class "animated"
      (classList_add "animate-on-scroll" (Element ["section__header"] [] []))
    = has_class "animated" (Element ["section__header"] [] [])
  ∧ loadFadeElements false true [Element ["section__header"] [] []]
                     (Element [] [] []) !! 0%nat
    = Some (Element ["section__header"] [] []).
Proof.
  apply (fade_elements_after_load true [Element ["section__header"] [] []]
           (Element [] [] []) 0 (Element ["section__header"] [] [])).
  reflexivity.
Defined.

End FeatureSupportFacts.

(** ** Contact form, continued *)

Section ContactFormMore.
Import Dom JsString ContactForm.
Implicit Types (s : state) (f : field).

(** X17. [isValidEmail] accepts exactly the values of the shape
    [local@domain.tld]: three non-empty runs of code units that are
    neither white space nor [@], the first two separated by one [@], the
    last two by a dot.  Dots may occur inside the runs. *)
Theorem isValidEmail_shape (email : jsstring) :
  isValidEmail email = true
  ↔ ∃ l d t, email = l ++ [0x40%N] ++ d ++ [0x2E%N] ++ t
             ∧ l ≠ [] ∧ d ≠ [] ∧ t ≠ []
             ∧ Forall (λ c, notSpaceAt c = true) l
             ∧ Forall (λ c, notSpaceAt c = true) d
             ∧ Forall (λ c, notSpaceAt c = true) t.
Proof.
  unfold isValidEmail, emailRegex. rewrite test_lang. split.
  - intros (l & rest & -> & [Hl Hl']%lang_plus_class & H)%lang_cat_inv.
    apply lang_cat_inv in H as (x & rest' & -> & Hat & H).
    apply lang_class_inv in Hat as (c & -> & <-%N.eqb_eq).
    apply lang_cat_inv in H as (d & rest'' & -> & [Hd Hd']%lang_plus_class & H).
    apply lang_cat_inv in H as (y & t & -> & Hdot & [Ht Ht']%lang_plus_class).
    apply lang_class_inv in Hdot as (c & -> & <-%N.eqb_eq).
    by exists l, d, t.
  - intros (l & d & t & -> & Hl & Hd & Ht & Hl' & Hd' & Ht').
    repeat (apply lang_cat;
            [first [by apply lang_plus_class | by constructor]|]).
    by apply lang_plus_class.
Qed.

Lemma truthy_trim (v : jsstring) : truthy (trim v) = true → truthy v = true.
Proof. by destruct v. Qed.

(** X18. On a required control that is an [input] or a [textarea] (the
    elements [addInputValidation] gives listeners to), losing the focus
    does what the validation of a submission does for that control: the
    same inline error with the same message, or the error cleared. *)
Theorem blur_agrees_with_submit s (i : nat) f (isValid : bool) :
  fields s !! i = Some f → required f = true → hasListeners f = true →
  step s (Blur i) = (validateField i (s, isValid)).1.
Proof.
  intros Hi Hreq Hl. cbn [step]. unfold dispatch. rewrite Hi, Hl.
  unfold blur, validateField. rewrite Hi, Hreq.
  cbn [andb]. destruct (truthy (trim (value f))) eqn:E; cbn [negb]; [|done].
  rewrite (truthy_trim _ E). cbn [andb].
  rewrite andb_true_r. by destruct (_ && _).
Qed.

Lemma blur_agrees_with_submit_witness :
  step (run [Input 1 (of_string "jane@x")] jane_form) (Blur 1)
  = (validateField 1 (run [Input 1 (of_string "jane@x")] jane_form, true)).1.
Proof.
  apply (blur_agrees_with_submit
           (run [Input 1 (of_string "jane@x")] jane_form) 1
           (Field "input" true "email" (of_string "jane@x") [] 1 "") true);
    reflexivity.
Defined.

Lemma alter_absent {X} (g : X → X) (l : list X) i :
  l !! i = None → alter g i l = l.
Proof.
  intros H. apply list_eq. intros j. destruct (decide (j = i)) as [->|Hne].
  - by rewrite list_lookup_alter_eq, H.
  - by rewrite list_lookup_alter_ne.
Qed.

Lemma clearFieldError_fields i s :
  fields (clearFieldError i s) = alter (set_borderColor "") i (fields s).
Proof.
  unfold clearFieldError. destruct (fields s !! i) eqn:E; [done|].
  by rewrite alter_absent.
Qed.

Lemma showFieldError_fields i m s :
  fields (showFieldError i m s) = alter (set_borderColor "#ef4444") i (fields s).
Proof.
  unfold showFieldError.
  destruct (fields (clearFieldError i s) !! i) eqn:E.
  - cbn [fields with_fields with_dom]. rewrite clearFieldError_fields.
    rewrite list_alter_alter_eq. by apply list_alter_ext.
  - rewrite clearFieldError_fields in *.
    rewrite list_lookup_alter_eq in E.
    destruct (fields s !! i) eqn:E'; [done|]. by rewrite !alter_absent.
Qed.

(** The parents of the controls stay the same elements. *)
Lemma parents_alter (g : field → field) i (l : list field) :
  (∀ f, parentNode (g f) = parentNode f) →
  parentNode <$> alter g i l = parentNode <$> l.
Proof. intros Hg. by apply fmap_alter_same. Qed.

Lemma clearFieldError_parents i s : parents (clearFieldError i s) = parents s.
Proof.
  unfold parents. rewrite clearFieldError_fields. by apply parents_alter.
Qed.

Lemma showFieldError_parents i m s : parents (showFieldError i m s) = parents s.
Proof.
  unfold parents. rewrite showFieldError_fields. by apply parents_alter.
Qed.

(** An update at an element leaves alone the children of an element that
    lies apart from it. *)
Lemma find_box_update_apart p q g d :
  tame g → p ≠ q → inside p q d = false → inside q p d = false →
  find_box p (update_box q g d) = find_box p d.
Proof.
  intros Hg Hne Hpq Hqp. rewrite find_box_update_other by done.
  destruct (find_box p d) as [c|] eqn:E; [|done].
  cbn [fmap option_fmap option_map]. f_equal.
  apply map_update_box_absent. by apply (find_box_not_inside p q d).
Qed.

Lemma parent_of_control s i f : fields s !! i = Some f → parentNode f ∈ parents s.
Proof.
  intros Hi. unfold parents. apply list_elem_of_fmap. exists f.
  split; [done|]. by apply list_elem_of_lookup_2 with i.
Qed.

Lemma clearFieldError_tidy i s :
  parents_apart s ∧ tidy_errors s →
  parents_apart (clearFieldError i s) ∧ tidy_errors (clearFieldError i s).
Proof.
  intros [Ha Ht]. destruct (fields s !! i) as [f|] eqn:Hi;
    [|unfold clearFieldError; by rewrite Hi].
  pose proof (parent_of_control s i f Hi) as Hq.
  unfold parents_apart, tidy_errors. rewrite clearFieldError_parents.
  rewrite (clearFieldError_dom i s f Hi). split.
  - intros p q Hp Hq'. rewrite update_box_inside by apply tame_clear_first.
    by apply Ha.
  - intros p Hp. unfold errorsIn. cbn [dom with_fields with_dom].
    rewrite (clearFieldError_dom i s f Hi).
    specialize (Ht p Hp). unfold errorsIn in Ht.
    destruct (decide (p = parentNode f)) as [->|Hne].
    + rewrite find_box_update_same.
      destruct (find_box (parentNode f) (dom s)) as [c|]; cbn in *; [|lia].
      rewrite errors_in_clear_first. destruct (errors_in c); cbn in *; lia.
    + rewrite find_box_update_apart;
        [done | apply tame_clear_first | done | by apply Ha | by apply Ha].
Qed.

Lemma showFieldError_tidy i m s :
  parents_apart s ∧ tidy_errors s →
  parents_apart (showFieldError i m s) ∧ tidy_errors (showFieldError i m s).
Proof.
  intros [Ha Ht]. destruct (fields s !! i) as [f|] eqn:Hi;
    [|unfold showFieldError, clearFieldError; by rewrite Hi, Hi].
  pose proof (parent_of_control s i f Hi) as Hq.
  unfold parents_apart, tidy_errors. rewrite showFieldError_parents. split.
  - intros p q Hp Hq'. rewrite (showFieldError_dom i m s f Hi).
    rewrite !update_box_inside by (apply tame_appendChild || apply tame_clear_first).
    by apply Ha.
  - intros p Hp. unfold errorsIn. rewrite (showFieldError_dom i m s f Hi).
    specialize (Ht p Hp). unfold errorsIn in Ht.
    destruct (decide (p = parentNode f)) as [->|Hne].
    + rewrite !find_box_update_same.
      destruct (find_box (parentNode f) (dom s)) as [c|]; cbn in *; [|lia].
      unfold appendChild. rewrite errors_in_app, errors_in_clear_first.
      rewrite length_app. destruct (errors_in c) as [|x [|y l]]; cbn in *; lia.
    + rewrite !find_box_update_apart;
        [done | apply tame_clear_first | done | by apply Ha | by apply Ha
        | apply tame_appendChild | done | |];
        rewrite update_box_inside by apply tame_clear_first; by apply Ha.
Qed.

Lemma validateField_tidy i acc :
  parents_apart acc.1 ∧ tidy_errors acc.1 →
  parents_apart (validateField i acc).1 ∧ tidy_errors (validateField i acc).1.
Proof.
  destruct acc as [s b]. unfold validateField. cbn [fst].
  destruct (fields s !! i) as [f|]; [|done]. intros H.
  destruct (negb _); [by apply showFieldError_tidy|].
  destruct (_ && _); [by apply showFieldError_tidy | by apply clearFieldError_tidy].
Qed.

Lemma validateFrom_tidy controls :
  ∀ i acc, parents_apart acc.1 ∧ tidy_errors acc.1 →
           parents_apart (validateFrom i controls acc).1
           ∧ tidy_errors (validateFrom i controls acc).1.
Proof.
  induction controls as [|f0 controls IH]; intros i acc H; cbn [validateFrom];
    [done|].
  apply IH. destruct (required f0); [by apply validateField_tidy | done].
Qed.

Lemma handleSubmit_fields s : fields (handleSubmit s) = fields (validateForm s).1.
Proof.
  unfold handleSubmit. destruct (validateForm s) as [s1 [|]]; [|done].
  unfold submitForm. cbn. by destruct (submitBtn s1).
Qed.

Lemma run_task_dom tk s : dom (run_task tk s) = dom s.
Proof.
  destruct tk; try done. cbn [run_task]. unfold submitForm_resume, try_rest.
  cbn [dom with_submitBtn]. by destruct (resetShadowed _).
Qed.

Lemma run_task_parents tk s : parents (run_task tk s) = parents s.
Proof.
  destruct tk; try done. cbn [run_task]. unfold submitForm_resume, try_rest, parents.
  cbn [fields with_submitBtn]. destruct (resetShadowed _); [done|].
  cbn [reset fields with_fields]. rewrite <- list_fmap_compose.
  by apply list_fmap_ext.
Qed.

(** The same tree and the same parents: the same errors below them, and
    the same elements apart. *)
Lemma tidy_same s s' :
  dom s' = dom s → parents s' = parents s →
  parents_apart s ∧ tidy_errors s → parents_apart s' ∧ tidy_errors s'.
Proof.
  unfold parents_apart, tidy_errors, errorsIn. intros -> ->. done.
Qed.

Lemma dispatch_tidy h i s :
  (∀ s', parents_apart s' ∧ tidy_errors s' →
         parents_apart (h i s') ∧ tidy_errors (h i s')) →
  parents_apart s ∧ tidy_errors s →
  parents_apart (dispatch h i s) ∧ tidy_errors (dispatch h i s).
Proof.
  intros Hh H. unfold dispatch. destruct (fields s !! i) as [f|]; [|done].
  destruct (hasListeners f); [by apply Hh | done].
Qed.

Lemma blur_tidy i s :
  parents_apart s ∧ tidy_errors s →
  parents_apart (blur i s) ∧ tidy_errors (blur i s).
Proof.
  intros H. unfold blur. destruct (fields s !! i) as [f|]; [|done].
  destruct (_ && _); [by apply showFieldError_tidy|].
  destruct (_ && _);
    [by apply showFieldError_tidy | by apply clearFieldError_tidy].
Qed.

Lemma step_tidy s ev :
  parents_apart s ∧ tidy_errors s →
  parents_apart (step s ev) ∧ tidy_errors (step s ev).
Proof.
  intros H. destruct ev as [|i|i v| |d]; cbn [step].
  - apply (tidy_same (validateForm s).1).
    + apply handleSubmit_dom.
    + unfold parents. by rewrite handleSubmit_fields.
    + by apply (validateFrom_tidy (fields s) 0 (s, true)).
  - apply dispatch_tidy; [|done]. intros s'. apply blur_tidy.
  - apply dispatch_tidy; [intros s'; apply clearFieldError_tidy|].
    apply (tidy_same s); [done | | done].
    unfold parents. cbn [fields with_fields]. by apply parents_alter.
  - unfold fire_next.
    destruct (earliest (timers s)) as [[[due tk] rest]|];
      cbn [default from_option id]; [|done].
    apply (tidy_same (with_now (Z.max (now s) due) (with_timers rest s)));
      [apply run_task_dom | apply run_task_parents | done].
  - done.
Qed.

Lemma parents_of_data (l l' : list field) :
  data <$> l = data <$> l' → parentNode <$> l = parentNode <$> l'.
Proof.
  intros H. apply (f_equal (fmap parentNode)) in H.
  by rewrite <- !list_fmap_compose in H.
Qed.

Lemma dispatch_parents h i s :
  (∀ s', parents (h i s') = parents s') → parents (dispatch h i s) = parents s.
Proof.
  intros Hh. unfold dispatch. destruct (fields s !! i) as [f|]; [|done].
  by destruct (hasListeners f).
Qed.

Lemma step_parents s ev : parents (step s ev) = parents s.
Proof.
  destruct ev as [|i|i v| |d]; cbn [step].
  - unfold parents. rewrite handleSubmit_fields.
    apply parents_of_data, (validateFrom_data (fields s) 0 (s, true)).
  - apply dispatch_parents. intros s'. unfold blur.
    destruct (fields s' !! i) as [f|]; [|done].
    destruct (_ && _); [apply showFieldError_parents|].
    destruct (_ && _);
      [apply showFieldError_parents | apply clearFieldError_parents].
  - rewrite dispatch_parents by (intros; apply clearFieldError_parents).
    unfold parents. cbn [fields with_fields]. by apply parents_alter.
  - unfold fire_next.
    destruct (earliest (timers s)) as [[[due tk] rest]|];
      cbn [default from_option id]; [|done].
    by rewrite run_task_parents.
  - done.
Qed.

(** X19. On a form where the parents of the controls lie apart (the
    parent of no control inside the parent of another) and that has at
    most one inline error below each of them, there is never more than
    one inline error below the parent of a control, whatever is
    submitted, typed, left or timed out: an error that is shown replaces
    the one that was there. *)
Theorem one_error_per_parent (s : state) (evs : list event) (p : nat) :
  parents_apart s → tidy_errors s → p ∈ parents s →
  (length (errorsIn p (run evs s)) ≤ 1)%nat.
Proof.
  intros Ha Ht Hp.
  assert (H : tidy_errors (run evs s) ∧ parents (run evs s) = parents s).
  { unfold run. revert s Ha Ht Hp.
    induction evs as [|ev evs IH]; intros s Ha Ht Hp; cbn [foldl]; [done|].
    destruct (step_tidy s ev (conj Ha Ht)) as [Ha' Ht'].
    pose proof (step_parents s ev) as Hps.
    destruct (IH (step s ev) Ha' Ht') as [H1 H2]; [by rewrite Hps|].
    split; [done | by rewrite H2]. }
  destruct H as [H1 H2]. apply H1. by rewrite H2.
Qed.

Lemma one_error_per_parent_witness :
  (length (errorsIn 0 (run [Submit; Blur 0; Input 1 (of_string "x"); Submit]
                           crowded_form)) ≤ 1)%nat.
Proof.
  apply (one_error_per_parent crowded_form).
  - intros p q Hp Hq. vm_compute in Hp, Hq.
    apply list_elem_of_In in Hp, Hq. cbn in Hp, Hq.
    destruct Hp as [<-|[<-|[]]], Hq as [<-|[<-|[]]]; reflexivity.
  - intros p Hp. vm_compute in Hp.
    apply list_elem_of_In in Hp. cbn in Hp.
    destruct Hp as [<-|[<-|[]]]; vm_compute; lia.
  - vm_compute. apply list_elem_of_here.
Defined.

(** Where the parent of a control lies inside the parent of another, two
    inline errors can stand below one parent: on [nested_form] the second
    control loses the focus while empty, then the first. *)
Example nested_parents_two_errors :
  length (errorsIn 9 (run [Blur 1; Blur 0] nested_form)) = 2%nat.
Proof. reflexivity. Qed.

Lemma border_after_alter c k (l : list field) i :
  borderColor <$> alter (set_borderColor c) k l !! i
  = if decide (i = k) then (λ _, c) <$> l !! k else borderColor <$> l !! i.
Proof.
  destruct (decide (i = k)) as [->|Hne].
  - rewrite list_lookup_alter_eq. by destruct (l !! k).
  - by rewrite list_lookup_alter_ne.
Qed.

(** The border of every control after the loop: that of a required
    control the loop came by says whether it is acceptable, any other
    border is as before. *)
Lemma validateFrom_border l0 controls :
  ∀ k s b,
    segment l0 k controls → data <$> fields s = data <$> l0 →
    ∀ i f0, l0 !! i = Some f0 →
      borderColor <$> fields (validateFrom k controls (s, b)).1 !! i
      = if decide (k ≤ i < k + length controls)%nat
        then (if required f0
              then Some (if acceptable f0 then "" else "#ef4444")
              else borderColor <$> fields s !! i)
        else borderColor <$> fields s !! i.
Proof.
  induction controls as [|c0 controls IH]; intros k s b Hseg Hd i f0 Hi;
    cbn [validateFrom length].
  - rewrite decide_False by lia. done.
  - apply segment_cons in Hseg as [Hk Hseg].
    destruct (required c0) eqn:Hr.
    + destruct (data_lookup _ _ k c0 Hd Hk) as (f & Hf & Hdf).
      rewrite (validateField_spec k s b f Hf).
      rewrite (data_acceptable _ _ Hdf).
      rewrite (IH (S k) _ _ Hseg) with (f0 := f0); [| |done].
      * destruct (acceptable c0) eqn:Ha.
        -- rewrite clearFieldError_fields, border_after_alter, Hf. cbn.
           repeat case_decide; try lia; try done.
           subst i. rewrite Hk in Hi. injection Hi as <-. by rewrite Hr, Ha.
        -- rewrite showFieldError_fields, border_after_alter, Hf. cbn.
           repeat case_decide; try lia; try done.
           subst i. rewrite Hk in Hi. injection Hi as <-. by rewrite Hr, Ha.
      * rewrite <- Hd.
        destruct (acceptable c0);
          [apply clearFieldError_data | apply showFieldError_data].
    + rewrite (IH (S k) _ _ Hseg Hd) with (f0 := f0); [|done].
      repeat case_decide; try lia; try done.
      assert (i = k) as -> by lia. rewrite Hk in Hi. injection Hi as <-.
      by rewrite Hr.
Qed.

(** X20. After a submission the border of every required control tells
    whether it passed: red ([#ef4444]) when it is empty after trimming
    or an e-mail control that fails the pattern, reset otherwise; this
    also holds for controls that share their parent.  The border of a
    control that is not required is not touched. *)
Theorem handleSubmit_borders s (i : nat) f :
  fields s !! i = Some f →
  borderColor <$> fields (handleSubmit s) !! i
  = Some (if required f
          then (if acceptable f then "" else "#ef4444")
          else borderColor f).
Proof.
  intros Hi. rewrite handleSubmit_fields. unfold validateForm.
  rewrite (validateFrom_border (fields s) (fields s) 0 s true
             (segment_whole _) eq_refl i f Hi).
  rewrite decide_True by (apply lookup_lt_Some in Hi; lia).
  rewrite Hi. by destruct (required f).
Qed.

Lemma handleSubmit_borders_witness :
  borderColor <$> fields (handleSubmit crowded_form) !! 0%nat = Some "#ef4444".
Proof.
  apply (handleSubmit_borders crowded_form 0
           (Field "input" true "text" [] [] 0 "")).
  reflexivity.
Defined.

(** X21. A submission that does not validate changes inline errors and
    borders only: [submitForm] is not called, the button, the
    notifications, the timers and the clock stay as they were, and so do
    the value, the type and the parent of every control. *)
Theorem invalid_submission_changes_errors_only s :
  (validateForm s).2 = false →
  submitCalls (handleSubmit s) = submitCalls s
  ∧ submitBtn (handleSubmit s) = submitBtn s
  ∧ notifications (handleSubmit s) = notifications s
  ∧ timers (handleSubmit s) = timers s
  ∧ now (handleSubmit s) = now s
  ∧ (λ f, (required f, type f, value f, defaultValue f, parentNode f))
      <$> fields (handleSubmit s)
    = (λ f, (required f, type f, value f, defaultValue f, parentNode f))
      <$> fields s.
Proof.
  intros Hinvalid. pose proof (validateForm_rest s) as Hr.
  pose proof (validateFrom_data (fields s) 0 (s, true)) as Hd.
  unfold handleSubmit. fold (validateForm s) in Hd.
  destruct (validateForm s) as [s1 valid]. cbn in Hinvalid, Hr, Hd.
  subst valid. unfold rest_of in Hr. injection Hr as -> -> _ -> -> -> _.
  repeat split.
  apply (f_equal (fmap (λ f, (required f, type f, value f, defaultValue f,
                              parentNode f)))) in Hd.
  rewrite <- !list_fmap_compose in Hd. exact Hd.
Qed.

Lemma invalid_submission_changes_errors_only_witness :
  submitCalls (handleSubmit crowded_form) = submitCalls crowded_form
  ∧ submitBtn (handleSubmit crowded_form) = submitBtn crowded_form
  ∧ notifications (handleSubmit crowded_form) = notifications crowded_form
  ∧ timers (handleSubmit crowded_form) = timers crowded_form
  ∧ now (handleSubmit crowded_form) = now crowded_form
  ∧ (λ f, (required f, type f, value f, defaultValue f, parentNode f))
      <$> fields (handleSubmit crowded_form)
    = (λ f, (required f, type f, value f, defaultValue f, parentNode f))
      <$> fields crowded_form.
Proof.
  apply (invalid_submission_changes_errors_only crowded_form).
  vm_compute. reflexivity.
Defined.

(** X22. The life of a notification shown while no timer is pending:
    it is appended off screen; the first timer to fire, 100 ms later,
    slides it in; the next, 5000 ms after it was shown, slides it out;
    the last, 300 ms after that, removes it, and no timer is left.  Its
    text never changes. *)
Theorem notification_lifecycle s (message type : string) :
  timers s = [] →
  ∃ s1 s2 s3 shown,
    notifications (showNotification message type s) = notifications s ++ [shown]
    ∧ n_transform shown = "translateX(100%)" ∧ attached shown = true
    ∧ n_textContent shown = message
    ∧ fire_next (showNotification message type s) = Some s1
    ∧ now s1 = now s + 100
    ∧ notifications s1
      = notifications s
        ++ [Notification (n_className shown) (n_background shown)
              "translateX(0)" message true]
    ∧ fire_next s1 = Some s2
    ∧ now s2 = now s + 5000
    ∧ notifications s2 = notifications s ++ [shown]
    ∧ fire_next s2 = Some s3
    ∧ now s3 = now s + 5300
    ∧ notifications s3
      = notifications s
        ++ [Notification (n_className shown) (n_background shown)
              "translateX(100%)" message false]
    ∧ timers s3 = [] ∧ fire_next s3 = None.
Proof.
  intros Hidle. destruct s as [fs es bt ns cs nw tm sc sh].
  cbn in Hidle. subst tm.
  assert (Halter : ∀ g (x : notification),
             alter g (length ns) (ns ++ [x]) = ns ++ [g x]).
  { intros g x. by rewrite <- (Nat.add_0_r (length ns)), alter_app_r. }
  assert (H1 : (nw + 100 <=? nw + 5000) = true) by (apply Z.leb_le; lia).
  eexists _, _, _, _.
  repeat (split;
          [ solve [ unfold fire_next, showNotification, setTimeout;
                    cbn -[Z.add Z.max Z.leb]; rewrite ?H1;
                    cbn -[Z.add Z.max Z.leb]; rewrite ?Halter;
                    first [ reflexivity | lia ] ] | ]).
  reflexivity.
Qed.

Lemma notification_lifecycle_witness :
  ∃ s1 s2 s3 shown,
    notifications (showNotification "Saved" "success" jane_form)
    = notifications jane_form ++ [shown]
    ∧ n_transform shown = "translateX(100%)" ∧ attached shown = true
    ∧ n_textContent shown = "Saved"
    ∧ fire_next (showNotification "Saved" "success" jane_form) = Some s1
    ∧ now s1 = now jane_form + 100
    ∧ notifications s1
      = notifications jane_form
        ++ [Notification (n_className shown) (n_background shown)
              "translateX(0)" "Saved" true]
    ∧ fire_next s1 = Some s2
    ∧ now s2 = now jane_form + 5000
    ∧ notifications s2 = notifications jane_form ++ [shown]
    ∧ fire_next s2 = Some s3
    ∧ now s3 = now jane_form + 5300
    ∧ notifications s3
      = notifications jane_form
        ++ [Notification (n_className shown) (n_background shown)
              "translateX(100%)" "Saved" false]
    ∧ timers s3 = [] ∧ fire_next s3 = None.
Proof.
  apply (notification_lifecycle jane_form "Saved" "success"). reflexivity.
Defined.

(** X23. Typing into an [input] or a [textarea] takes its inline error
    away: when an error was shown for a control below whose parent there
    was no error before, then after the next [input] event there is no
    error below the parent, the border is reset, and the control holds
    what was typed. *)
Theorem input_clears_error s (i : nat) f (message : string) (v : jsstring)
  (c : list node) :
  fields s !! i = Some f → hasListeners f = true →
  find_box (parentNode f) (dom s) = Some c → errors_in c = [] →
  errorsIn (parentNode f) (showFieldError i message s) = [errorDiv_of message]
  ∧ errorsIn (parentNode f) (step (showFieldError i message s) (Input i v)) = []
  ∧ fields (step (showFieldError i message s) (Input i v)) !! i
    = Some (set_borderColor "" (set_value v f)).
Proof.
  intros Hi Hl Hc Hnone.
  assert (Hbox : find_box (parentNode f) (dom (showFieldError i message s))
                 = Some (appendChild (errorDiv_of message) (clear_first c))).
  { rewrite (showFieldError_dom i message s f Hi).
    by rewrite !find_box_update_same, Hc. }
  assert (Hshown : errorsIn (parentNode f) (showFieldError i message s)
                   = [errorDiv_of message]).
  { unfold errorsIn. rewrite Hbox. cbn [from_option]. unfold appendChild.
    by rewrite errors_in_app, errors_in_clear_first, Hnone. }
  split; [done|].
  assert (Hf1 : fields (showFieldError i message s) !! i
                = Some (set_borderColor "#ef4444" f))
    by (by rewrite showFieldError_fields, list_lookup_alter_eq, Hi).
  cbn [step]. unfold dispatch.
  set (s1 := with_fields _ (showFieldError i message s)).
  assert (Hf2 : fields s1 !! i
                = Some (set_value v (set_borderColor "#ef4444" f)))
    by (unfold s1; cbn [fields with_fields];
        by rewrite list_lookup_alter_eq, Hf1).
  rewrite Hf2.
  change (hasListeners (set_value v (set_borderColor "#ef4444" f)))
    with (hasListeners f).
  rewrite Hl. unfold input. split.
  - unfold errorsIn. rewrite (clearFieldError_dom i s1 _ Hf2).
    cbn [parentNode set_value set_borderColor].
    change (dom s1) with (dom (showFieldError i message s)).
    rewrite find_box_update_same, Hbox. cbn [fmap option_fmap option_map from_option].
    rewrite errors_in_clear_first. unfold appendChild.
    by rewrite errors_in_app, errors_in_clear_first, Hnone.
  - by rewrite clearFieldError_fields, list_lookup_alter_eq, Hf2.
Qed.

Lemma input_clears_error_witness :
  errorsIn 0 (showFieldError 0 "This field is required" lonely_form)
  = [errorDiv_of "This field is required"]
  ∧ errorsIn 0 (step (showFieldError 0 "This field is required" lonely_form)
                     (Input 0 (of_string "J"))) = []
  ∧ fields (step (showFieldError 0 "This field is required" lonely_form)
                 (Input 0 (of_string "J"))) !! 0%nat
    = Some (set_borderColor "" (set_value (of_string "J")
                                  (Field "input" true "text" [] [] 0 ""))).
Proof.
  apply (input_clears_error lonely_form 0
           (Field "input" true "text" [] [] 0 "")
           "This field is required" (of_string "J") []); reflexivity.
Defined.

End ContactFormMore.

(** ** Debounce, continued *)

(** Two bursts and a single call with a delay of 16 ms: [func] is called
    three times, for the last call of each burst. *)
Lemma debounce_trailing_edge_witness :
  Debounce.calls
    (Debounce.advance 200
       (Debounce.run_ops 16 (Debounce.idle_loop Debounce.two_bursts)
          (Debounce.fresh 0 0%nat)))
  = Debounce.trailing 16 200 Debounce.two_bursts
  ∧ Debounce.trailing 16 200 Debounce.two_bursts
    = [(26, "c"); (56, "d"); (121, "f")].
Proof.
  split; [|reflexivity].
  apply (debounce_trailing_edge 16 0 0%nat 200 Debounce.two_bursts).
  - lia.
  - simpl. lia.
Defined.

Section DebounceMore.
Import Debounce.
Context {A : Type}.
Implicit Types (s : state A) (tm : timer A).

Lemma advance_at_most_one n T s : at_most_one n s → at_most_one n (advance T s).
Proof.
  intros [[Hq|(tm & Hp & Ht)] Hn].
  - rewrite (advance_quiet T s Hq). split; [by left|].
    cbn. rewrite Hq in Hn. cbn in Hn. lia.
  - destruct (decide (due tm ≤ T)) as [Hle|Hgt].
    + rewrite (advance_firing T s tm Hp Hle). split; [by left|].
      cbn. rewrite Hp in Hn. rewrite length_app. cbn in *. lia.
    + rewrite (advance_waiting T s tm Hp) by lia.
      split; [right; by exists tm|]. cbn. by rewrite Hp in Hn.
Qed.

Lemma executedFunction_at_most_one n w a s :
  at_most_one n s → at_most_one (S n) (executedFunction w a s).
Proof.
  intros [[Hq|(tm & Hp & Ht)] Hn].
  - rewrite (executedFunction_quiet w a s Hq). split.
    + right. by eexists.
    + cbn. rewrite Hq in Hn. cbn in Hn. lia.
  - rewrite (executedFunction_rearm w a s tm Hp Ht). split.
    + right. by eexists.
    + cbn. rewrite Hp in Hn. cbn in Hn. lia.
Qed.

Lemma run_ops_at_most_one w (ops : list (op A)) :
  ∀ n s, at_most_one n s →
         at_most_one (n + length (filter (λ o, is_call o = true) ops))
                     (run_ops w ops s).
Proof.
  unfold run_ops.
  induction ops as [|o ops IH]; intros n s H; cbn [foldl].
  - by rewrite filter_nil, Nat.add_0_r.
  - destruct o as [t a|t]; cbn [run_op].
    + rewrite filter_cons_True by done. cbn [length].
      replace (n + S (length (filter (λ o, is_call o = true) ops)))%nat
        with (S n + length (filter (λ o, is_call o = true) ops))%nat by lia.
      apply IH. unfold call_at. cbn [snd fst].
      by apply executedFunction_at_most_one.
    + rewrite filter_cons_False by done.
      by apply IH, advance_at_most_one.
Qed.

(** X25. Whatever the order and the times of the calls of the wrapper and
    of the runs of the event loop, at most one timer of the wrapper is
    pending, it is the one the variable [timeout] names, and [func] has
    been called at most as often as the wrapper, less the pending
    timer. *)
Theorem debounce_one_pending_timer
  (w t0 : Z) (id0 : nat) (ops : list (op A)) :
  (length (pending (run_ops w ops (fresh t0 id0))) ≤ 1)%nat
  ∧ (∀ tm, tm ∈ pending (run_ops w ops (fresh t0 id0)) →
           timeout (run_ops w ops (fresh t0 id0)) = Some (timer_id tm))
  ∧ (length (calls (run_ops w ops (fresh t0 id0)))
     + length (pending (run_ops w ops (fresh t0 id0)))
     ≤ length (filter (λ o, is_call o = true) ops))%nat.
Proof.
  assert (H0 : at_most_one 0 (fresh t0 id0 : state A))
    by (split; [by left | cbn; lia]).
  destruct (run_ops_at_most_one w ops 0 _ H0) as [[Hq|(tm & Hp & Ht)] Hn].
  - rewrite Hq in *. split; [cbn; lia|]. split; [|exact Hn].
    intros tm Htm. by apply elem_of_nil in Htm.
  - rewrite Hp in *. split; [cbn; lia|]. split; [|exact Hn].
    intros tm' Htm'. apply list_elem_of_singleton in Htm' as ->. exact Ht.
Qed.

End DebounceMore.

(** ** Header blur, continued *)

Section HeaderMore.
Import Dom Scroll.

(** X26. With the header in place, [handleHeaderScroll] changes the class
    [blur-header] of the header and nothing else on the page, and a
    second run at the same scroll offset changes nothing at all. *)
Theorem handleHeaderScroll_settles (p : page) (h : element) :
  header p = Some h →
  ∃ p' h',
    handleHeaderScroll p = Normal p'
    ∧ handleHeaderScroll p' = Normal p'
    ∧ header p' = Some h'
    ∧ sections p' = sections p ∧ elements p' = elements p
    ∧ pageYOffset p' = pageYOffset p
    ∧ attributes h' = attributes h ∧ style h' = style h
    ∧ ∀ c, c ≠ "blur-header" → has_class c h' = has_class c h.
Proof.
  intros Hh. unfold handleHeaderScroll. rewrite Hh.
  destruct (50 <=? pageYOffset p) eqn:E.
  - eexists _, _. split; [reflexivity|]. cbn [header pageYOffset]. rewrite E.
    split.
    + do 2 f_equal. unfold classList_add; cbn [classList attributes style].
      by rewrite add_add_same.
    + repeat split. intros c Hc. by apply has_class_add_other.
  - eexists _, _. split; [reflexivity|]. cbn [header pageYOffset]. rewrite E.
    split.
    + do 2 f_equal. unfold classList_remove; cbn [classList attributes style].
      by rewrite remove_remove_same.
    + repeat split. intros c Hc. by apply has_class_remove_other.
Qed.

Lemma handleHeaderScroll_settles_witness :
  ∃ p' h',
    handleHeaderScroll
      (Page (Some (Element ["header"] [("id", "header")] [])) [] [] 120)
    = Normal p'
    ∧ handleHeaderScroll p' = Normal p'
    ∧ header p' = Some h'
    ∧ sections p' = [] ∧ elements p' = []
    ∧ pageYOffset p' = 120
    ∧ attributes h' = [("id", "header")] ∧ style h' = []
    ∧ ∀ c, c ≠ "blur-header"
           → has_class c h' = has_class c (Element ["header"] [("id", "header")] []).
Proof.
  apply (handleHeaderScroll_settles
           (Page (Some (Element ["header"] [("id", "header")] [])) [] [] 120)
           (Element ["header"] [("id", "header")] [])).
  reflexivity.
Defined.

End HeaderMore.
